(** * Infinity Admin Control Plane: endpoint health monitor and offline cache

    A shallow embedding of the two pieces of the dashboard that carry logic:
    the service worker ([pwa/service-worker.js]) and the Gateway / Vault
    endpoint probing code of [dashboard/app.js].

    Conventions of the embedding.
    - A string is kept as the bytes of its UTF-8 encoding.
    - [localStorage] is a finite map from keys to strings.
    - A [Cache] maps the URL of a GET request to the stored response; the
      [CacheStorage] is the list of named caches in creation order, which is
      the order [caches.match] searches them in. Requests are told apart by
      method and URL: their headers are not modelled, so two requests for
      one URL carry the same headers and a Vary header never tells them
      apart.
    - The network is an input: a fetch either yields a response or fails.
    - A promise is represented by the value it settles to.
    - One run of a handler or loader is followed from start to end, a
      [cache.put] that is not awaited included; two runs that overlap in
      time are not modelled. Toasts are kept as a log, their removal after
      a few seconds is left out. *)

From Stdlib Require Import Ascii.
From stdpp Require Import gmap strings list fin_maps pretty.

Open Scope string_scope.
Open Scope list_scope.

(** ** Strings as the platform sees them *)

(** The double quote character, code 34. *)
Definition dquote : string := String "034"%char EmptyString.

(** [s.includes(needle)] *)
Fixpoint includes (needle s : string) : bool :=
  String.prefix needle s ||
  match s with
  | EmptyString => false
  | String _ rest => includes needle rest
  end.

(** [s.trim()] removes, at both ends, the white space and line terminator
    code points of ECMAScript: the six of ASCII, and U+00A0, U+1680, U+2000
    to U+200A, U+2028, U+2029, U+202F, U+205F, U+3000 and U+FEFF, which take
    two or three bytes in UTF-8. *)
Definition space2 (a b : ascii) : bool :=
  (nat_of_ascii a =? 194)%nat && (nat_of_ascii b =? 160)%nat.

Definition space3 (a b c : ascii) : bool :=
  let x := nat_of_ascii a in
  let y := nat_of_ascii b in
  let z := nat_of_ascii c in
  ((x =? 225) && (y =? 154) && (z =? 128)
   || (x =? 226) && (y =? 128)
      && ((128 <=? z) && (z <=? 138) || (z =? 168) || (z =? 169) || (z =? 175))
   || (x =? 226) && (y =? 129) && (z =? 159)
   || (x =? 227) && (y =? 128) && (z =? 128)
   || (x =? 239) && (y =? 187) && (z =? 191))%nat.

(** Drops the white space at the head of [s]; with [reversed] the bytes of
    [s], and so of each code point, come last byte first. *)
Fixpoint stripLeading (reversed : bool) (s : string) : string :=
  match s with
  | EmptyString => EmptyString
  | String a r1 =>
      if Ascii.is_space a then stripLeading reversed r1
      else
        match r1 with
        | EmptyString => s
        | String b r2 =>
            if (if reversed then space2 b a else space2 a b) then stripLeading reversed r2
            else
              match r2 with
              | EmptyString => s
              | String c r3 =>
                  if (if reversed then space3 c b a else space3 a b c)
                  then stripLeading reversed r3
                  else s
              end
        end
  end.

Definition trimStart (s : string) : string := stripLeading false s.

Definition trimEnd (s : string) : string :=
  String.rev (stripLeading true (String.rev s)).

Definition trim (s : string) : string := trimEnd (trimStart s).

(** A string as a JavaScript condition: only the empty string is falsy. *)
Definition nonempty (s : string) : bool :=
  match s with EmptyString => false | String _ _ => true end.

(** ** The service worker *)

Module ServiceWorker.

Definition CACHE_NAME : string := "iacp-v1".
Definition API_CACHE : string := "iacp-api-v1".

Definition PRECACHE_URLS : list string :=
  [ "/dashboard/"; "/dashboard/index.html"; "/dashboard/app.js";
    "/dashboard/github-api.js"; "/dashboard/styles/main.css";
    "/pwa/manifest.json" ].

(** A response: [vary] holds the field names its Vary header lists. *)
Record Response := {
  status : nat;
  body : string;
  contentType : option string;
  vary : list string
}.

Global Instance Response_eq_dec : EqDecision Response.
Proof. solve_decision. Defined.

(** A response without a Vary header, such as
    [new Response(body, { status, headers })]. *)
Definition mkResponse (status : nat) (body : string) (contentType : option string)
  : Response :=
  {| status := status; body := body; contentType := contentType; vary := [] |}.

(** [response.ok] *)
Definition ok (r : Response) : bool :=
  (200 <=? status r)%nat && (status r <=? 299)%nat.

(** A request with the parts of [new URL(request.url)] the handler reads. *)
Record Request := mkRequest {
  method : string;
  url : string;
  hostname : string;
  pathname : string
}.

Abbreviation Cache := (gmap string Response).
Abbreviation CacheStorage := (list (string * Cache)).

(** The result of [fetch(request)]: a response, or [None] when it rejects. *)
Abbreviation Network := (Request -> option Response).

(** *** Cache storage operations *)

Definition caches_keys (cs : CacheStorage) : list string := cs.*1.

Fixpoint caches_get (name : string) (cs : CacheStorage) : option Cache :=
  match cs with
  | [] => None
  | (n, c) :: rest => if decide (n = name) then Some c else caches_get name rest
  end.

Definition caches_delete (name : string) (cs : CacheStorage) : CacheStorage :=
  filter (fun nc => nc.1 ≠ name) cs.

(** [caches.open(name)] creates the cache when there is none of that name;
    [cache.put] then writes into it. *)
Fixpoint caches_put (name key : string) (r : Response) (cs : CacheStorage)
  : CacheStorage :=
  match cs with
  | [] => [(name, {[ key := r ]})]
  | (n, c) :: rest =>
      if decide (n = name) then (n, <[ key := r ]> c) :: rest
      else (n, c) :: caches_put name key r rest
  end.

Definition caches_open (name : string) (cs : CacheStorage) : CacheStorage :=
  match caches_get name cs with
  | Some _ => cs
  | None => cs ++ [(name, ∅)]
  end.

(** [cache.match(request)] on the cache called [name]: a request that is
    not a GET matches nothing. *)
Definition cache_match (name : string) (req : Request) (cs : CacheStorage)
  : option Response :=
  if bool_decide (method req = "GET") then c ← caches_get name cs; c !! url req
  else None.

(** The first cache, in creation order, with an entry under [key]. *)
Fixpoint caches_find (key : string) (cs : CacheStorage) : option Response :=
  match cs with
  | [] => None
  | (_, c) :: rest =>
      match c !! key with
      | Some r => Some r
      | None => caches_find key rest
      end
  end.

(** [caches.match(request)] *)
Definition caches_match (req : Request) (cs : CacheStorage) : option Response :=
  if bool_decide (method req = "GET") then caches_find (url req) cs else None.

(** What the Cache API refuses to store: a partial response (status 206)
    and a response whose Vary header lists the wildcard. *)
Definition storable (r : Response) : bool :=
  negb (status r =? 206)%nat && negb (bool_decide ("*" ∈ vary r)).

Definition http_scheme (u : string) : bool :=
  String.prefix "http://" u || String.prefix "https://" u.

(** Whether [cache.put(request, response)] stores the response: the request
    must be a GET for an http or https URL and the response storable;
    otherwise the put rejects with a TypeError. *)
Definition put_accepts (req : Request) (r : Response) : bool :=
  bool_decide (method req = "GET") && http_scheme (url req) && storable r.

(** [cache.put(request, response.clone())] on the cache called [name], not
    awaited: when the put rejects, nobody sees the rejection and the cache
    stays as it was. *)
Definition cache_put (name : string) (req : Request) (r : Response) (cs : CacheStorage)
  : CacheStorage :=
  if put_accepts req r then caches_put name (url req) r cs else cs.

(** *** Life cycle *)

Record Worker := mkWorker {
  caches : CacheStorage;
  waiting : bool;       (* cleared by [skipWaiting] *)
  controlling : bool    (* set by [clients.claim] *)
}.

(** [cache.addAll]: every URL is fetched, and nothing is stored unless every
    fetch returned an ok response that is storable. The URLs are resolved
    against the worker's own location, which is http or https; the entries
    are kept under the URLs as [PRECACHE_URLS] writes them. *)
Fixpoint addAll_fetch (net : string -> option Response) (urls : list string)
  : option (list (string * Response)) :=
  match urls with
  | [] => Some []
  | u :: rest =>
      match net u with
      | Some r =>
          if ok r && storable r then (fun l => (u, r) :: l) <$> addAll_fetch net rest
          else None
      | None => None
      end
  end.

Definition install (net : string -> option Response) (w : Worker) : option Worker :=
  let cs := caches_open CACHE_NAME (caches w) in
  match addAll_fetch net PRECACHE_URLS with
  | Some entries =>
      Some {| caches := foldl (fun acc e => caches_put CACHE_NAME e.1 e.2 acc) cs entries;
              waiting := false;
              controlling := controlling w |}
  | None => None
  end.

(** The filter of the activate listener. *)
Definition superseded (k : string) : bool :=
  bool_decide (k ≠ CACHE_NAME) && bool_decide (k ≠ API_CACHE).

Definition activate (w : Worker) : Worker :=
  {| caches := foldl (fun acc k => caches_delete k acc) (caches w)
                 (filter (fun k => superseded k = true) (caches_keys (caches w)));
     waiting := waiting w;
     controlling := true |}.

(** *** JavaScript values that flow through the fetch helpers *)

Inductive JsValue :=
| JsUndefined
| JsNull
| JsResponse (r : Response)
| JsPromise (settled : JsValue).

Definition truthy (v : JsValue) : bool :=
  match v with
  | JsUndefined | JsNull => false
  | JsResponse _ | JsPromise _ => true
  end.

(** [a || b] *)
Definition js_or (a b : JsValue) : JsValue := if truthy a then a else b.

(** The value an [async] function's promise is fulfilled with when the
    function returns [v]: a returned promise is followed. *)
Fixpoint fulfilment (v : JsValue) : JsValue :=
  match v with
  | JsPromise settled => fulfilment settled
  | _ => v
  end.

Definition of_match (o : option Response) : JsValue :=
  match o with Some r => JsResponse r | None => JsUndefined end.

Definition jsonHeaders : option string := Some "application/json".

Definition offlineErrorBody : string :=
  "{" +:+ dquote +:+ "error" +:+ dquote +:+ ":" +:+ dquote +:+ "offline" +:+ dquote +:+ "}".

(** *** Fetch helpers *)

Definition cacheFirst (net : Network) (req : Request) (cacheName : string)
    (cs : CacheStorage) : JsValue * CacheStorage :=
  match caches_match req cs with
  | Some cached => (JsResponse cached, cs)
  | None =>
      match net req with
      | Some response =>
          (JsResponse response,
           if ok response then cache_put cacheName req response (caches_open cacheName cs)
           else cs)
      | None => (JsResponse (mkResponse 503 "Offline" (Some "text/plain;charset=UTF-8")), cs)
      end
  end.

Definition staleWhileRevalidate (net : Network) (req : Request) (cacheName : string)
    (cs : CacheStorage) : JsValue * CacheStorage :=
  let cs1 := caches_open cacheName cs in
  let cached := cache_match cacheName req cs1 in
  let fetched := net req in
  let cs2 :=
    match fetched with
    | Some response =>
        if ok response then cache_put cacheName req response cs1 else cs1
    | None => cs1
    end in
  let fetchPromise :=
    JsPromise (match fetched with Some response => JsResponse response | None => JsNull end) in
  (fulfilment (js_or (of_match cached)
                 (js_or fetchPromise (JsResponse (mkResponse 200 "{}" jsonHeaders)))),
   cs2).

(** The GitHub API branch: [fetch(request).catch(() => new Response(...))]. *)
Definition networkFirst (net : Network) (req : Request) : JsValue :=
  match net req with
  | Some response => JsResponse response
  | None => JsResponse (mkResponse 200 offlineErrorBody jsonHeaders)
  end.

(** *** The fetch listener *)

Inductive Strategy :=
| PassThrough
| NetworkFirst
| StaleWhileRevalidate (cacheName : string)
| CacheFirst (cacheName : string).

(** The branch the listener takes, in the order it tests them. *)
Definition strategy (req : Request) : Strategy :=
  if bool_decide (method req ≠ "GET") then PassThrough
  else if bool_decide (hostname req = "api.github.com") then NetworkFirst
  else if includes "/_STATE/" (pathname req) then StaleWhileRevalidate API_CACHE
  else if bool_decide (hostname req = "cdnjs.cloudflare.com") then CacheFirst CACHE_NAME
  else CacheFirst CACHE_NAME.

(** What the page gets back, and the cache storage afterwards. [None]: the
    listener returned without [respondWith], the browser handles the request. *)
Definition onFetch (net : Network) (req : Request) (cs : CacheStorage)
  : option JsValue * CacheStorage :=
  match strategy req with
  | PassThrough => (None, cs)
  | NetworkFirst => (Some (networkFirst net req), cs)
  | StaleWhileRevalidate cacheName =>
      let '(v, cs') := staleWhileRevalidate net req cacheName cs in (Some v, cs')
  | CacheFirst cacheName =>
      let '(v, cs') := cacheFirst net req cacheName cs in (Some v, cs')
  end.

(** *** Vocabulary of the properties *)

(** The classification as the specification words it: a table of rules read
    top to bottom, the first rule that matches decides. *)
Definition priority_rules : list ((Request -> bool) * Strategy) :=
  [ (fun req => bool_decide (method req ≠ "GET"), PassThrough);
    (fun req => bool_decide (hostname req = "api.github.com"), NetworkFirst);
    (fun req => includes "/_STATE/" (pathname req), StaleWhileRevalidate API_CACHE);
    (fun req => bool_decide (hostname req = "cdnjs.cloudflare.com"), CacheFirst CACHE_NAME);
    (fun _ => true, CacheFirst CACHE_NAME) ].

Fixpoint first_match (rules : list ((Request -> bool) * Strategy)) (req : Request)
  : option Strategy :=
  match rules with
  | [] => None
  | (applies, s) :: rest => if applies req then Some s else first_match rest req
  end.

Definition current (name : string) : Prop := name = CACHE_NAME ∨ name = API_CACHE.

Global Instance current_dec name : Decision (current name).
Proof. unfold current. apply _. Defined.

(** Whether the stale-while-revalidate branch is taken with nothing cached
    and the network down. *)
Definition unanswerable (net : Network) (req : Request) (cs : CacheStorage) : Prop :=
  ∃ name, strategy req = StaleWhileRevalidate name
          ∧ cache_match name req (caches_open name cs) = None
          ∧ net req = None.

(** The response stored under [key] in the cache called [name], if any. *)
Definition stored (name key : string) (cs : CacheStorage) : option Response :=
  c ← caches_get name cs; c !! key.

End ServiceWorker.

(** ** The Gateway and Vault panels of the dashboard *)

Module Dashboard.

Record Endpoint := mkEndpoint {
  id : string;
  label : string;
  url : string;
  icon : string;
  group : string
}.

Global Instance Endpoint_eq_dec : EqDecision Endpoint.
Proof. solve_decision. Defined.

Definition with_url (ep : Endpoint) (u : string) : Endpoint :=
  {| id := id ep; label := label ep; url := u; icon := icon ep; group := group ep |}.

Definition GW_KEY_CUSTOM : string := "iacp_gw_custom".
Definition GW_KEY_CF_URL : string := "iacp_gw_cf_tunnel_url".
Definition GW_KEY_CF_GW : string := "iacp_gw_cf_gateway_url".

Definition CF_ENDPOINTS : list Endpoint :=
  [ mkEndpoint "vizual-x" "vizual-x.com" "https://vizual-x.com" "☁️" "cf";
    mkEndpoint "infinityxai" "infinityxai.com" "https://infinityxai.com" "🤖" "ai" ].

Definition AI_ENDPOINTS : list Endpoint :=
  [ mkEndpoint "ollama-local" "Ollama (local)" "http://localhost:11434" "🦙" "ai";
    mkEndpoint "groq-api" "Groq API" "https://api.groq.com" "⚡" "ai";
    mkEndpoint "gemini-api" "Gemini API" "https://generativelanguage.googleapis.com" "🔮" "ai" ].

Inductive Status := online | offline | checking.

Global Instance Status_eq_dec : EqDecision Status.
Proof. solve_decision. Defined.

(** *** Probing *)

(** What the network does with one probe request: a response (opaque or not,
    with whatever status code) after some milliseconds, a failure (host
    unreachable, DNS failure, CORS rejection) after some milliseconds, or
    nothing at all. *)
Inductive NetEvent :=
| Replied (at_ms : N) (opaque : bool) (code : nat)
| Failed (at_ms : N) (reason : string)
| Silent.

Inductive Settled (A : Type) :=
| Fulfilled (a : A)
| Rejected (name : string).
Arguments Fulfilled {A} a.
Arguments Rejected {A} name.

(** [fetch(url, { signal })] with [setTimeout(() => controller.abort(), ms)]:
    whatever has not settled when the timer fires is aborted. *)
Definition fetch_with_abort (ms : N) (ev : NetEvent) : Settled (bool * nat) :=
  match ev with
  | Replied t opaque code =>
      if (t <? ms)%N then Fulfilled (opaque, code) else Rejected "AbortError"
  | Failed t _ =>
      if (t <? ms)%N then Rejected "TypeError" else Rejected "AbortError"
  | Silent => Rejected "AbortError"
  end.

Definition probeEndpoint (fetch : string -> NetEvent) (u : string) : Settled Status :=
  match fetch_with_abort 5000 (fetch u) with
  | Fulfilled _ => Fulfilled online
  | Rejected name =>
      if bool_decide (name = "AbortError") then Fulfilled offline
      else Fulfilled offline
  end.

(** [Promise.all] *)
Fixpoint Promise_all {A} (ps : list (Settled A)) : Settled (list A) :=
  match ps with
  | [] => Fulfilled []
  | Fulfilled a :: rest =>
      match Promise_all rest with
      | Fulfilled l => Fulfilled (a :: l)
      | Rejected e => Rejected e
      end
  | Rejected e :: _ => Rejected e
  end.

(** The [i]-th probe of a batch sees the network as [net i]. *)
Definition probeBatch (net : nat -> string -> NetEvent) (eps : list Endpoint)
  : Settled (list Status) :=
  Promise_all (imap (fun i ep => probeEndpoint (net i) (url ep)) eps).

(** *** The page *)

(** One endpoint card, as [endpointCardHtml(ep, status)] draws it. *)
Record Card := mkCard {
  card_ep : Endpoint;
  card_status : Status
}.

Definition endpointCardHtml (ep : Endpoint) (status : Status) : Card :=
  mkCard ep status.

Definition dotCls (c : Card) : string :=
  match card_status c with
  | online => "online"
  | offline => "offline"
  | checking => "warning"
  end.

Definition statusText (c : Card) : string :=
  match card_status c with
  | online => "Online"
  | offline => "Offline"
  | checking => "Checking…"
  end.

(** The [innerHTML] of a grid: a run of endpoint cards, or other markup. *)
Inductive Html :=
| Cards (cards : list Card)
| Markup (text : string).

Definition cards_of (h : option Html) : list Card :=
  match h with
  | Some (Cards cards) => cards
  | _ => []
  end.

(** The elements the Gateway and Vault code looks up by id; [None] stands for
    an element that is not in the document. *)
Record Dom := mkDom {
  gateway_cf_grid : option Html;
  gateway_ai_grid : option Html;
  gateway_nav_dot : option string;
  vault_grid : option Html;
  vault_endpoint_grid : option Html;
  toast_container : option (list (string * string));
  gateway_new_label : option string;
  gateway_new_url : option string;
  settings_cf_tunnel_url : option string;
  settings_cf_gateway_url : option string
}.

Definition set_gateway_grids (cf ai : Html) (d : Dom) : Dom :=
  mkDom (Some cf) (Some ai) (gateway_nav_dot d) (vault_grid d)
    (vault_endpoint_grid d) (toast_container d) (gateway_new_label d)
    (gateway_new_url d) (settings_cf_tunnel_url d) (settings_cf_gateway_url d).

Definition set_nav_dot (cls : string) (d : Dom) : Dom :=
  mkDom (gateway_cf_grid d) (gateway_ai_grid d)
    (match gateway_nav_dot d with Some _ => Some cls | None => None end)
    (vault_grid d) (vault_endpoint_grid d) (toast_container d)
    (gateway_new_label d) (gateway_new_url d) (settings_cf_tunnel_url d)
    (settings_cf_gateway_url d).

Definition set_vault_grid (h : Html) (d : Dom) : Dom :=
  mkDom (gateway_cf_grid d) (gateway_ai_grid d) (gateway_nav_dot d) (Some h)
    (vault_endpoint_grid d) (toast_container d) (gateway_new_label d)
    (gateway_new_url d) (settings_cf_tunnel_url d) (settings_cf_gateway_url d).

Definition set_vault_endpoint_grid (h : Html) (d : Dom) : Dom :=
  mkDom (gateway_cf_grid d) (gateway_ai_grid d) (gateway_nav_dot d) (vault_grid d)
    (Some h) (toast_container d) (gateway_new_label d) (gateway_new_url d)
    (settings_cf_tunnel_url d) (settings_cf_gateway_url d).

Definition clear_new_endpoint_inputs (d : Dom) : Dom :=
  mkDom (gateway_cf_grid d) (gateway_ai_grid d) (gateway_nav_dot d) (vault_grid d)
    (vault_endpoint_grid d) (toast_container d)
    (match gateway_new_label d with Some _ => Some EmptyString | None => None end)
    (match gateway_new_url d with Some _ => Some EmptyString | None => None end)
    (settings_cf_tunnel_url d) (settings_cf_gateway_url d).

Definition showToast (msg type : string) (d : Dom) : Dom :=
  match toast_container d with
  | None => d
  | Some toasts =>
      mkDom (gateway_cf_grid d) (gateway_ai_grid d) (gateway_nav_dot d)
        (vault_grid d) (vault_endpoint_grid d) (Some (toasts ++ [(msg, type)]))
        (gateway_new_label d) (gateway_new_url d) (settings_cf_tunnel_url d)
        (settings_cf_gateway_url d)
  end.

(** The page: [localStorage], the document, and the probe requests sent so
    far (the URL of each, oldest first). *)
Record Page := mkPage {
  storage : gmap string string;
  dom : Dom;
  probed : list string
}.

(** [localStorage.getItem(key)] used as a condition and as a value: a missing
    key and the empty string both count as not saved. *)
Definition saved (st : gmap string string) (key : string) : option string :=
  match st !! key with
  | Some v => if nonempty v then Some v else None
  | None => None
  end.

(** The callback of [CF_ENDPOINTS.map] in [loadGateway] and [loadVault]. *)
Definition applyOverride (savedCfUrl savedGwUrl : option string) (ep : Endpoint)
  : Endpoint :=
  match (if bool_decide (id ep = "vizual-x") then savedCfUrl else None) with
  | Some u => with_url ep u
  | None =>
      match (if bool_decide (id ep = "infinityxai") then savedGwUrl else None) with
      | Some g => with_url ep g
      | None => ep
      end
  end.

Definition cfEndpoints (st : gmap string string) : list Endpoint :=
  map (applyOverride (saved st GW_KEY_CF_URL) (saved st GW_KEY_CF_GW)) CF_ENDPOINTS.

(** [statusMap] is a plain object used as a map from endpoint ids to
    statuses: the finite map holds its own properties. The key __proto__ is
    never one of them: it names the accessor inherited from
    [Object.prototype], whose setter ignores a string and whose getter
    returns the prototype. The other keys [Object.prototype] defines are
    read from it as long as the object has no property of its own under
    them, and an assignment creates that property. *)
Definition inheritedKeys : list string :=
  [ "constructor"; "hasOwnProperty"; "isPrototypeOf"; "propertyIsEnumerable";
    "toLocaleString"; "toString"; "valueOf"; "__defineGetter__"; "__defineSetter__";
    "__lookupGetter__"; "__lookupSetter__" ].

(** What [statusMap[k]] evaluates to. *)
Inductive Property :=
| Own (s : Status)
| Inherited
| Undefined.

Global Instance Property_eq_dec : EqDecision Property.
Proof. solve_decision. Defined.

(** [statusMap[k] = s] *)
Definition statusMap_set (k : string) (s : Status) (statusMap : gmap string Status)
  : gmap string Status :=
  if bool_decide (k = "__proto__") then statusMap else <[ k := s ]> statusMap.

(** [statusMap[k]] *)
Definition statusMap_get (statusMap : gmap string Status) (k : string) : Property :=
  if bool_decide (k = "__proto__") then Inherited
  else
    match statusMap !! k with
    | Some s => Own s
    | None => if bool_decide (k ∈ inheritedKeys) then Inherited else Undefined
    end.

(** [statusMap[ep.id] = results[i]] for each endpoint, in order. *)
Definition buildStatusMap (eps : list Endpoint) (results : list Status)
  : gmap string Status :=
  foldl (fun m er => statusMap_set (id er.1) er.2 m) ∅ (zip eps results).

(** [statusMap[ep.id] || 'offline'], as [endpointCardHtml] draws it: an
    inherited value is truthy and is neither of the status texts, so the
    card comes out of the last branch, as for 'checking'. *)
Definition statusOf (statusMap : gmap string Status) (ep : Endpoint) : Status :=
  match statusMap_get statusMap (id ep) with
  | Own s => s
  | Inherited => checking
  | Undefined => offline
  end.

Definition renderVaultEndpoints (items : list (Endpoint * Status)) (d : Dom) : Dom :=
  match vault_endpoint_grid d with
  | None => d
  | Some _ =>
      set_vault_endpoint_grid
        (match items with
         | [] => Markup "Run probe from Gateway panel."
         | _ => Cards (map (fun it => endpointCardHtml it.1 it.2) items)
         end) d
  end.

Section Platform.

(** [JSON.parse] on the text stored under the custom endpoint key: [None]
    when it throws. The stored text is taken to be either unparseable or the
    text of an array of endpoint records, the shape [addGatewayEndpoint]
    writes. [JSON.stringify] and the [URL] constructor are the platform's. *)
Variable JSON_parse : string -> option (list Endpoint).
Variable JSON_stringify : list Endpoint -> string.
Variable URL_parses : string -> bool.

(** [try { custom = JSON.parse(getItem(KEY) || '[]') } catch { custom = [] }] *)
Definition readCustom (st : gmap string string) : list Endpoint :=
  match saved st GW_KEY_CUSTOM with
  | Some text => default [] (JSON_parse text)
  | None => []
  end.

Definition cfCustom (st : gmap string string) : list Endpoint :=
  filter (fun c => group c = "cf") (readCustom st).

Definition allAi (st : gmap string string) : list Endpoint :=
  AI_ENDPOINTS ++ filter (fun c => group c ≠ "cf") (readCustom st).

(** [[...allCf, ...cfCustom]] *)
Definition cfPanel (st : gmap string string) : list Endpoint :=
  cfEndpoints st ++ cfCustom st.

(** [[...allCf, ...cfCustom, ...allAi]] *)
Definition allEndpoints (st : gmap string string) : list Endpoint :=
  cfEndpoints st ++ cfCustom st ++ allAi st.

(** [loadGateway] up to its [await]: the skeleton is on screen and the probes
    are on their way. [None] when a grid is missing and the function returns. *)
Definition loadGateway_skeleton (p : Page) : option Page :=
  match gateway_cf_grid (dom p), gateway_ai_grid (dom p) with
  | Some _, Some _ =>
      let st := storage p in
      Some (mkPage st
              (set_gateway_grids
                 (Cards (map (fun ep => endpointCardHtml ep checking) (cfPanel st)))
                 (Cards (map (fun ep => endpointCardHtml ep checking) (allAi st)))
                 (dom p))
              (probed p ++ map url (allEndpoints st)))
  | _, _ => None
  end.

(** [loadGateway] after the [await], with the batch's results. *)
Definition loadGateway_render (results : list Status) (p : Page) : Page :=
  let st := storage p in
  let statusMap := buildStatusMap (allEndpoints st) results in
  let d1 :=
    set_gateway_grids
      (Cards (map (fun ep => endpointCardHtml ep (statusOf statusMap ep)) (cfPanel st)))
      (Cards (map (fun ep => endpointCardHtml ep (statusOf statusMap ep)) (allAi st)))
      (dom p) in
  let cfOnline :=
    existsb (fun ep => bool_decide (statusMap_get statusMap (id ep) = Own online))
      (cfPanel st) in
  let d2 := set_nav_dot (if cfOnline then "status-dot online" else "status-dot warning") d1 in
  mkPage st
    (renderVaultEndpoints (map (fun ep => (ep, statusOf statusMap ep)) (cfPanel st)) d2)
    (probed p).

Definition loadGateway (net : nat -> string -> NetEvent) (p : Page) : Settled Page :=
  match loadGateway_skeleton p with
  | None => Fulfilled p
  | Some p1 =>
      match probeBatch net (allEndpoints (storage p)) with
      | Fulfilled results => Fulfilled (loadGateway_render results p1)
      | Rejected e => Rejected e
      end
  end.

(** The static security items [loadVault] draws first. *)
Definition vaultItemsMarkup : Html := Markup "vault-item".

Definition loadVault_skeleton (p : Page) : option Page :=
  match vault_grid (dom p) with
  | None => None
  | Some _ =>
      let d1 := set_vault_grid vaultItemsMarkup (dom p) in
      let eps := cfEndpoints (storage p) in
      match vault_endpoint_grid d1 with
      | None => Some (mkPage (storage p) d1 (probed p))
      | Some _ =>
          Some (mkPage (storage p)
                  (set_vault_endpoint_grid
                     (Cards (map (fun ep => endpointCardHtml ep checking) eps)) d1)
                  (probed p ++ map url eps))
      end
  end.

(** [loadVault] after its [await]; a card whose result were missing would be
    drawn by the last branch of [endpointCardHtml], like a checking one. *)
Definition loadVault_render (statuses : list Status) (p : Page) : Page :=
  let eps := cfEndpoints (storage p) in
  mkPage (storage p)
    (set_vault_endpoint_grid
       (Cards (imap (fun i ep => endpointCardHtml ep (default checking (statuses !! i))) eps))
       (dom p))
    (probed p).

Definition loadVault (net : nat -> string -> NetEvent) (p : Page) : Settled Page :=
  match loadVault_skeleton p with
  | None => Fulfilled p
  | Some p1 =>
      match vault_endpoint_grid (dom p1) with
      | None => Fulfilled p1
      | Some _ =>
          match probeBatch net (cfEndpoints (storage p)) with
          | Fulfilled statuses => Fulfilled (loadVault_render statuses p1)
          | Rejected e => Rejected e
          end
      end
  end.

(** *** Editing the configuration *)

(** [el?.value.trim()]; [None] is [undefined], when the element is missing. *)
Definition fieldValue (el : option string) : option string := trim <$> el.

(** The id of a new custom endpoint, from [Date.now()] and the characters
    [Math.random().toString(36).substr(2, 9)] yields. *)
Definition customId (now : N) (suffix : string) : string :=
  "custom-" +:+ pretty now +:+ "-" +:+ suffix.

Definition rejectInput (msg : string) (p : Page) : Page * bool :=
  (mkPage (storage p) (showToast msg "error" (dom p)) (probed p), false).

(** The returned flag tells whether [loadGateway()] is called at the end. *)
Definition addGatewayEndpoint (now : N) (suffix : string) (p : Page) : Page * bool :=
  match fieldValue (gateway_new_label (dom p)), fieldValue (gateway_new_url (dom p)) with
  | Some label, Some url =>
      if nonempty label && nonempty url then
        if URL_parses url then
          let custom := readCustom (storage p) in
          let id := customId now suffix in
          let custom' := custom ++ [mkEndpoint id label url "🔗" "cf"] in
          (mkPage (<[ GW_KEY_CUSTOM := JSON_stringify custom' ]> (storage p))
             (showToast ("Added " +:+ label +:+ " — probing…") "info"
                (clear_new_endpoint_inputs (dom p)))
             (probed p),
           true)
        else rejectInput "Invalid URL — must start with http:// or https://" p
      else rejectInput "Enter both a label and a URL" p
  | _, _ => rejectInput "Enter both a label and a URL" p
  end.

Definition clearCustomEndpoints (p : Page) : Page * bool :=
  (mkPage (delete GW_KEY_CUSTOM (storage p))
     (showToast "Custom endpoints cleared" "info" (dom p)) (probed p),
   true).

(** [if (value) localStorage.setItem(key, value)] *)
Definition setIfGiven (key : string) (value : option string) (st : gmap string string)
  : gmap string string :=
  match value with
  | Some v => if nonempty v then <[ key := v ]> st else st
  | None => st
  end.

Definition saveTunnelConfig (p : Page) : Page :=
  let cfUrl := fieldValue (settings_cf_tunnel_url (dom p)) in
  let gwUrl := fieldValue (settings_cf_gateway_url (dom p)) in
  mkPage (setIfGiven GW_KEY_CF_GW gwUrl (setIfGiven GW_KEY_CF_URL cfUrl (storage p)))
    (showToast "Tunnel config saved" "success" (dom p))
    (probed p).

End Platform.

(** *** Vocabulary of the properties *)

(** A status a settled probe can have. *)
Definition terminal (s : Status) : Prop := s = online ∨ s = offline.


(** The cards on the Gateway panel (tunnel grid, then AI grid) and on the
    endpoint grid of the Vault panel. *)
Definition shownInGateway (d : Dom) : list Card :=
  cards_of (gateway_cf_grid d) ++ cards_of (gateway_ai_grid d).

Definition shownInVault (d : Dom) : list Card :=
  cards_of (vault_endpoint_grid d).

(** Both panels are drawn from one status map. *)
Definition one_status_map (d : Dom) : Prop :=
  ∃ statusMap : gmap string Status,
    ∀ c, c ∈ shownInGateway d ++ shownInVault d →
         card_status c = statusOf statusMap (card_ep c).

(** The two panels show the same status for an endpoint id they both show. *)
Definition panels_agree (d : Dom) : Prop :=
  ∀ c1 c2, c1 ∈ shownInGateway d → c2 ∈ shownInVault d →
           id (card_ep c1) = id (card_ep c2) → card_status c1 = card_status c2.

(** The two loaders that probe and redraw. *)
Inductive Cycle := GatewayCycle | VaultCycle.

Definition runCycle (JSON_parse : string -> option (list Endpoint)) (c : Cycle)
    (net : nat -> string -> NetEvent) (p : Page) : Settled Page :=
  match c with
  | GatewayCycle => loadGateway JSON_parse net p
  | VaultCycle => loadVault net p
  end.

Fixpoint has_char (c : ascii) (s : string) : bool :=
  match s with
  | EmptyString => false
  | String a rest => Ascii.eqb a c || has_char c rest
  end.

(** The result of the last probe, in batch order, whose endpoint has id [k]. *)
Fixpoint lastResult (k : string) (eps : list Endpoint) (rs : list Status)
  : option Status :=
  match eps, rs with
  | e :: eps', r :: rs' =>
      match lastResult k eps' rs' with
      | Some s => Some s
      | None => if decide (id e = k) then Some r else None
      end
  | _, _ => None
  end.

(** *** A concrete page for the examples *)

Definition emptyGrid : option Html := Some (Markup EmptyString).

Definition freshDom (label url cfField gwField : string) : Dom :=
  mkDom emptyGrid emptyGrid (Some "status-dot") emptyGrid emptyGrid (Some [])
    (Some label) (Some url) (Some cfField) (Some gwField).

Definition freshPage (st : gmap string string) : Page :=
  mkPage st (freshDom EmptyString EmptyString EmptyString EmptyString) [].

Definition netUp : nat -> string -> NetEvent := fun _ _ => Replied 80 true 0.
Definition netDown : nat -> string -> NetEvent := fun _ _ => Silent.

(** A stand-in for the platform's JSON codec in the examples: a list is
    written as the ids of its entries, and nothing parses. *)
Definition idsText (l : list Endpoint) : string := String.concat "," (id <$> l).
Definition noParse : string -> option (list Endpoint) := fun _ => None.

End Dashboard.

(** ** The GitHub API client ([dashboard/github-api.js]) *)

Module Api.
Import Dashboard.

Definition TOKEN_KEY : string := "iacp_gh_token".
Definition ORG_KEY : string := "iacp_gh_org".
Definition DEFAULT_ORG : string := "Infinity-X-One-Systems".

(** [localStorage.getItem(KEY) || fallback] *)
Definition getToken (st : gmap string string) : string :=
  default EmptyString (saved st TOKEN_KEY).

Definition getOrg (st : gmap string string) : string :=
  default DEFAULT_ORG (saved st ORG_KEY).

Definition setToken (t : string) (st : gmap string string) : gmap string string :=
  <[ TOKEN_KEY := t ]> st.

Definition setOrg (o : string) (st : gmap string string) : gmap string string :=
  <[ ORG_KEY := o ]> st.

Definition authHeaders (st : gmap string string) : list (string * string) :=
  let token := getToken st in
  ("Content-Type", "application/json")
  :: (if nonempty token then [("Authorization", "Bearer " +:+ token)] else []).

(** What a request comes back with: the fetch fails with a message, or there
    is a response with a status, whose body read as text may fail ([None])
    and read as JSON either parses or fails with a message. *)
Inductive Reply (J : Type) :=
| NetworkError (message : string)
| Http (status : N) (text : option string) (json : Settled J).
Arguments NetworkError {J} message.
Arguments Http {J} status text json.

(** [res.ok] *)
Definition okStatus (status : N) : bool := (200 <=? status)%N && (status <=? 299)%N.

(** [s.slice(0, n)], counted in bytes: on a body of ASCII characters these
    are the code units JavaScript counts. *)
Fixpoint slice0 (n : nat) (s : string) : string :=
  match n, s with
  | S n', String c rest => String c (slice0 n' rest)
  | _, _ => EmptyString
  end.

(** [ghFetch], after the fetch: the caller's URL and the headers of
    [authHeaders] went out, [reply] came back. *)
Definition ghFetch_reply {J} (reply : Reply J) : Settled J :=
  match reply with
  | NetworkError message => Rejected message
  | Http status text json =>
      if okStatus status then json
      else Rejected ("GitHub API " +:+ pretty status +:+ ": "
                     +:+ slice0 200 (default EmptyString text))
  end.

(** The network as [ghFetch] sees it: the reply to a URL requested with the
    given headers. *)
Definition ghFetch {J} (net : string -> list (string * string) -> Reply J)
    (st : gmap string string) (u : string) : Settled J :=
  ghFetch_reply (net u (authHeaders st)).

Inductive Validation (J : Type) :=
| Valid (user : J)
| Invalid (error : string).
Arguments Valid {J} user.
Arguments Invalid {J} error.

Definition validateToken {J} (net : string -> list (string * string) -> Reply J)
    (st : gmap string string) : Validation J :=
  match ghFetch net st "https://api.github.com/user" with
  | Fulfilled data => Valid data
  | Rejected message => Invalid message
  end.

(** [handleSettingsSave], with the text of the two input fields: the
    storage afterwards, the outcome of the validation, and the toast. *)
Definition handleSettingsSave {J} (net : string -> list (string * string) -> Reply J)
    (tokenField orgField : string) (st : gmap string string)
  : gmap string string * Validation J * (string * string) :=
  let token := trim tokenField in
  let org := trim orgField in
  let st1 := if nonempty token then setToken token st else st in
  let st2 := if nonempty org then setOrg org st1 else st1 in
  let result := validateToken net st2 in
  (st2, result,
   match result with
   | Valid _ => ("Token validated successfully", "success")
   | Invalid _ => ("Token invalid — check permissions", "error")
   end).

(** *** GraphQL and its pagination *)

(** The body of a GraphQL response: the messages of [errors] (none when the
    member is absent) and [data]. *)
Record GraphqlBody (D : Type) := mkGraphqlBody {
  errors : list string;
  data : D
}.
Arguments mkGraphqlBody {D} errors data.
Arguments errors {D} g.
Arguments data {D} g.

(** [graphql], after the fetch. *)
Definition graphql {D} (reply : Reply (GraphqlBody D)) : Settled D :=
  match reply with
  | NetworkError message => Rejected message
  | Http status _ json =>
      if okStatus status then
        match json with
        | Fulfilled body =>
            match errors body with
            | message :: _ => Rejected message
            | [] => Fulfilled (data body)
            end
        | Rejected message => Rejected message
        end
      else Rejected ("GraphQL HTTP " +:+ pretty status)
  end.

(** One page of a connection: [nodes] and [pageInfo]. *)
Record Connection (A : Type) := mkConnection {
  nodes : list A;
  hasNextPage : bool;
  endCursor : option string
}.
Arguments mkConnection {A} nodes hasNextPage endCursor.
Arguments nodes {A} c.
Arguments hasNextPage {A} c.
Arguments endCursor {A} c.

(** [data.organization.repositories] (or [.projectsV2]): [data] holds the
    connection, or [None] when [organization] is null, and reading a member
    of null throws. *)
Definition connectionOf {A} (reply : Reply (GraphqlBody (option (Connection A))))
  : Settled (Connection A) :=
  match graphql reply with
  | Fulfilled (Some page) => Fulfilled page
  | Fulfilled None => Rejected "TypeError"
  | Rejected message => Rejected message
  end.

(** The [while (hasNext)] loop of [fetchOrgRepos] and [fetchOrgProjects].
    [api i after] is the reply to the [i]-th request, made with cursor
    [after]. The loop runs as long as the server announces a next page, so
    it is given fuel: [None] means the fuel ran out first. *)
Fixpoint paginate {A} (fuel : nat)
    (api : nat -> option string -> Reply (GraphqlBody (option (Connection A))))
    (i : nat) (after : option string) (acc : list A) : option (Settled (list A)) :=
  match fuel with
  | 0 => None
  | S fuel' =>
      match connectionOf (api i after) with
      | Fulfilled page =>
          if hasNextPage page
          then paginate fuel' api (S i) (endCursor page) (acc ++ nodes page)
          else Some (Fulfilled (acc ++ nodes page))
      | Rejected message => Some (Rejected message)
      end
  end.

Definition fetchOrgRepos {A} (fuel : nat)
    (api : nat -> option string -> Reply (GraphqlBody (option (Connection A))))
  : option (Settled (list A)) :=
  paginate fuel api 0 None [].

(** The same loop inside [try { ... } catch { return [] }]. *)
Definition fetchOrgProjects {A} (fuel : nat)
    (api : nat -> option string -> Reply (GraphqlBody (option (Connection A))))
  : option (Settled (list A)) :=
  match paginate fuel api 0 None [] with
  | Some (Fulfilled projects) => Some (Fulfilled projects)
  | Some (Rejected _) => Some (Fulfilled [])
  | None => None
  end.

(** *** Open pull requests *)

(** [fetchOpenPRs]: one request per repository, one after the other; the
    pull requests of a repository that cannot be read are left out. [api i
    repo] is the reply to the [i]-th request, the one for [repo] (a body that
    is no array of pull requests counts as one that fails to parse: mapping
    over it throws just the same); each pull request is returned with the
    name of its repository. *)
Fixpoint fetchOpenPRs_loop {P} (api : nat -> string -> Reply (list P))
    (i : nat) (repos : list string) (results : list (P * string))
  : list (P * string) :=
  match repos with
  | [] => results
  | repo :: rest =>
      match ghFetch_reply (api i repo) with
      | Fulfilled prs =>
          fetchOpenPRs_loop api (S i) rest (results ++ map (fun pr => (pr, repo)) prs)
      | Rejected _ => fetchOpenPRs_loop api (S i) rest results
      end
  end.

Definition fetchOpenPRs {P} (api : nat -> string -> Reply (list P)) (repos : list string)
  : list (P * string) :=
  fetchOpenPRs_loop api 0 repos [].

(** *** Vocabulary of the properties *)

(** The pages the server hands out when the cursors are followed from
    [after] at request [i], up to the page that announces no next page. *)
Fixpoint served {A}
    (api : nat -> option string -> Reply (GraphqlBody (option (Connection A))))
    (i : nat) (after : option string) (pages : list (Connection A)) : Prop :=
  match pages with
  | [] => False
  | page :: rest =>
      connectionOf (api i after) = Fulfilled page
      ∧ if hasNextPage page then served api (S i) (endCursor page) rest else rest = []
  end.

(** The same, when after the pages [pages], each announcing a next one, the
    request for the following page fails with [message]. *)
Fixpoint servedUntilFailure {A}
    (api : nat -> option string -> Reply (GraphqlBody (option (Connection A))))
    (i : nat) (after : option string) (pages : list (Connection A)) (message : string)
  : Prop :=
  match pages with
  | [] => connectionOf (api i after) = Rejected message
  | page :: rest =>
      connectionOf (api i after) = Fulfilled page
      ∧ hasNextPage page = true
      ∧ servedUntilFailure api (S i) (endCursor page) rest message
  end.

(** The pull requests one repository contributes to [fetchOpenPRs]: none
    when its request fails. *)
Definition contribution {P} (api : nat -> string -> Reply (list P)) (i : nat)
    (repo : string) : list (P * string) :=
  match ghFetch_reply (api i repo) with
  | Fulfilled prs => map (fun pr => (pr, repo)) prs
  | Rejected _ => []
  end.

End Api.

(** ** The rest of the application controller ([dashboard/app.js]) *)

Module App.
Import Dashboard.

(** *** Categories *)

(** [s.toLowerCase()] as far as it bears on ASCII letters: A to Z become a
    to z, the Kelvin sign U+212A becomes k and U+0130 becomes i followed by
    U+0307. The other code points outside ASCII are left as they are: the
    platform maps them to code points outside ASCII again, so the bytes
    below 128 of the result, the only ones the rules of [CATEGORY_RULES]
    look at, are those of the platform's result. *)
Definition lowerChar (c : ascii) : ascii :=
  let n := nat_of_ascii c in
  if (65 <=? n)%nat && (n <=? 90)%nat then ascii_of_nat (n + 32) else c.

Definition isBytes2 (x y : nat) (a b : ascii) : bool :=
  (nat_of_ascii a =? x)%nat && (nat_of_ascii b =? y)%nat.

Definition isBytes3 (x y z : nat) (a b c : ascii) : bool :=
  (nat_of_ascii a =? x)%nat && (nat_of_ascii b =? y)%nat && (nat_of_ascii c =? z)%nat.

Fixpoint toLowerCase (s : string) : string :=
  match s with
  | EmptyString => EmptyString
  | String a r1 =>
      match r1 with
      | EmptyString => String (lowerChar a) EmptyString
      | String b r2 =>
          if isBytes2 196 176 a b then
            String "i" (String (ascii_of_nat 204) (String (ascii_of_nat 135) (toLowerCase r2)))
          else
            match r2 with
            | EmptyString => String (lowerChar a) (toLowerCase r1)
            | String c r3 =>
                if isBytes3 226 132 170 a b c then String "k" (toLowerCase r3)
                else String (lowerChar a) (toLowerCase r1)
            end
      end
  end.

Inductive Category :=
| core | discovery | sandbox | industry | memory | tools | archive | other.

Global Instance Category_eq_dec : EqDecision Category.
Proof. solve_decision. Defined.

(** The fields of a repository of the org index that the code reads: an
    absent count reads as 0, absent topics as none. *)
Record Repo := mkRepo {
  repoName : string;
  repoTopics : list string;
  isArchived : bool;
  openPullRequests : nat;
  openIssues : nat
}.

(** [CATEGORY_RULES], in the order of its entries; each expression is the
    list of its alternatives (the alternative tools? is tools or tool). *)
Definition CATEGORY_RULES : list (Category * list string) :=
  [ (core, ["core"; "admin"; "control"]);
    (discovery, ["discovery"; "research"; "explore"]);
    (sandbox, ["sandbox"; "experiment"; "test"]);
    (industry, ["industry"; "sector"; "market"]);
    (memory, ["memory"; "knowledge"; "journal"]);
    (tools, ["tools"; "tool"; "util"; "helper"; "cli"]);
    (archive, ["archive"; "legacy"; "deprecated"]) ].

(** [rx.test(str)] *)
Definition test (alternatives : list string) (str : string) : bool :=
  existsb (fun alt => includes alt str) alternatives.

Fixpoint firstRule (rules : list (Category * list string)) (str : string) : Category :=
  match rules with
  | [] => other
  | (cat, rx) :: rest => if test rx str then cat else firstRule rest str
  end.

Definition categorizeRepo (repo : Repo) : Category :=
  let topics := String.concat " " (repoTopics repo) in
  let str := toLowerCase (repoName repo +:+ " " +:+ topics) in
  if isArchived repo then archive else firstRule CATEGORY_RULES str.

(** *** Figures of the overview *)

(** [counts[c] = (counts[c] || 0) + 1]; a missing count reads as 0. *)
Definition bump (c : Category) (counts : Category -> nat) : Category -> nat :=
  fun c' => if decide (c' = c) then S (counts c) else counts c'.

(** The six cards of [renderKPIs], label and value. *)
Definition renderKPIs (repos : list Repo) : list (string * nat) :=
  let counts := foldl (fun counts r => bump (categorizeRepo r) counts) (fun _ => 0) repos in
  let total := length repos in
  let open_prs := foldl (fun s r => s + openPullRequests r) 0 repos in
  let open_issues := foldl (fun s r => s + openIssues r) 0 repos in
  [ ("TOTAL REPOS", total); ("OPEN PRs", open_prs); ("OPEN ISSUES", open_issues);
    ("CORE REPOS", counts core); ("SANDBOX", counts sandbox);
    ("MEMORY REPOS", counts memory) ].

(** *** Repositories by category *)

Definition CATS : list Category :=
  [core; discovery; sandbox; industry; memory; tools; archive; other].

(** [(groups[cat] = groups[cat] || []).push(r)] *)
Definition pushTo (c : Category) (r : Repo) (groups : Category -> list Repo)
  : Category -> list Repo :=
  fun c' => if decide (c' = c) then groups c ++ [r] else groups c'.

Inductive IndustryView :=
| NoRepos
| Groups (shown : list (Category * list Repo)).

Definition loadIndustry (repos : list Repo) : IndustryView :=
  let groups := foldl (fun groups r => pushTo (categorizeRepo r) r groups) (fun _ => []) repos in
  match repos with
  | [] => NoRepos
  | _ =>
      Groups (map (fun c => (c, groups c))
                (filter (fun c => (0 < length (groups c))%nat) CATS))
  end.

(** *** Relative time *)

(** The [iso] argument of [relativeTime]: missing, not a date, or a time in
    milliseconds. *)
Inductive Stamp :=
| NoStamp
| BadStamp
| At (ms : Z).

(** What [relativeTime] prints: a dash, a number of minutes, hours or days
    followed by ago, or the date in the locale's format. *)
Inductive Ago :=
| Dash
| Minutes (n : Z)
| Hours (n : Z)
| Days (n : Z)
| LocaleDate.

Definition relativeTime (now : Z) (iso : Stamp) : Ago :=
  match iso with
  | NoStamp => Dash
  | BadStamp => LocaleDate
  | At t =>
      let diff := (now - t)%Z in
      let min := (diff `div` 60000)%Z in
      if (min <? 60)%Z then Minutes min
      else
        let hr := (min `div` 60)%Z in
        if (hr <? 24)%Z then Hours hr
        else
          let day := (hr `div` 24)%Z in
          if (day <? 30)%Z then Days day else LocaleDate
  end.

(** *** Routing *)

Definition SECTIONS : list string :=
  [ "overview"; "projects"; "discovery"; "sandbox"; "validation"; "industry";
    "memory"; "vault"; "editor"; "roadmap"; "gateway"; "settings" ].

Inductive Loader :=
| LoadOverview | LoadProjects | LoadDiscovery | LoadSandbox | LoadValidation
| LoadIndustry | LoadMemory | LoadVault | LoadEditor | LoadRoadmap | LoadGateway
| RenderSettings.

(** The [switch] of [loadSection]: a section without a case loads nothing. *)
Definition loadSection (section : string) : option Loader :=
  if String.eqb section "overview" then Some LoadOverview
  else if String.eqb section "projects" then Some LoadProjects
  else if String.eqb section "discovery" then Some LoadDiscovery
  else if String.eqb section "sandbox" then Some LoadSandbox
  else if String.eqb section "validation" then Some LoadValidation
  else if String.eqb section "industry" then Some LoadIndustry
  else if String.eqb section "memory" then Some LoadMemory
  else if String.eqb section "vault" then Some LoadVault
  else if String.eqb section "editor" then Some LoadEditor
  else if String.eqb section "roadmap" then Some LoadRoadmap
  else if String.eqb section "gateway" then Some LoadGateway
  else if String.eqb section "settings" then Some RenderSettings
  else None.

(** The table of [sectionLabel]. *)
Definition sectionLabels : list (string * string) :=
  [ ("overview", "Overview"); ("projects", "Projects"); ("discovery", "Discovery");
    ("sandbox", "Sandbox"); ("validation", "Validation"); ("industry", "Industry");
    ("memory", "Memory"); ("vault", "Vault"); ("editor", "Editor");
    ("roadmap", "Roadmap"); ("gateway", "Gateway & Tunnel"); ("settings", "Settings") ].

Fixpoint assoc (key : string) (table : list (string * string)) : option string :=
  match table with
  | [] => None
  | (k, v) :: rest => if String.eqb k key then Some v else assoc key rest
  end.

Definition sectionLabel (section : string) : string :=
  default section (assoc section sectionLabels).

(** [State.section] and the fragment of the location (without the #). *)
Record Nav := mkNav {
  section : string;
  fragment : string
}.

(** [navigate]: the state afterwards, the section handed to [loadSection],
    and whether assigning [location.hash] changed the fragment, in which
    case the browser fires a hashchange event. *)
Definition navigate (requested : string) (nav : Nav) : Nav * string * bool :=
  let target := if bool_decide (requested ∈ SECTIONS) then requested else "overview" in
  (mkNav target target, target, bool_decide (fragment nav ≠ target)).

(** The hashchange listener: [location.hash.replace('#', '') || 'overview']. *)
Definition onHashChange (nav : Nav) : Nav * string * bool :=
  navigate (if nonempty (fragment nav) then fragment nav else "overview") nav.

(** A call of [navigate] followed by the hashchange event it may cause: the
    final state, the sections loaded in order, and whether yet another
    hashchange is pending. *)
Definition navigateAndSettle (requested : string) (nav : Nav) : Nav * list string * bool :=
  let '(nav1, loaded1, changed1) := navigate requested nav in
  if changed1 then
    let '(nav2, loaded2, changed2) := onHashChange nav1 in
    (nav2, [loaded1; loaded2], changed2)
  else (nav1, [loaded1], false).

(** *** Theme *)

Definition THEME_KEY : string := "iacp_theme".

(** [State.theme], the data-theme attribute of the document and the text of
    the toggle button. *)
Record ThemeState := mkThemeState {
  theme : string;
  dataTheme : string;
  toggleText : string
}.

(** [localStorage.getItem('iacp_theme') || 'dark'] *)
Definition initialTheme (st : gmap string string) : string :=
  default "dark" (saved st THEME_KEY).

Definition applyTheme (t : string) (st : gmap string string)
  : ThemeState * gmap string string :=
  (mkThemeState t t (if String.eqb t "dark" then "☀️" else "🌙"),
   <[ THEME_KEY := t ]> st).

(** The click listener of the toggle button. *)
Definition toggleTheme (s : ThemeState) (st : gmap string string)
  : ThemeState * gmap string string :=
  applyTheme (if String.eqb (theme s) "dark" then "light" else "dark") st.

(** *** State files *)

(** The request [loadStateFile] makes for [filename] at time [now]:
    [STATE_BASE] resolves, against the page, to the directory [rootDir] (no
    trailing slash) of the site at [origin]. *)
Definition stateFileRequest (origin host rootDir filename : string) (now : N)
  : ServiceWorker.Request :=
  ServiceWorker.mkRequest "GET"
    (origin +:+ rootDir +:+ "/_STATE/" +:+ filename +:+ "?t=" +:+ pretty now)
    host
    (rootDir +:+ "/_STATE/" +:+ filename).

End App.

(** ** Properties of the service worker *)

Module ServiceWorkerSpec.
Import ServiceWorker.

(** *** Cache storage *)

Lemma superseded_iff k : superseded k = true ↔ ¬ current k.
Proof.
  unfold superseded, current.
  rewrite andb_true_iff, !bool_decide_eq_true. tauto.
Qed.

Lemma caches_delete_all (ks : list string) (cs : CacheStorage) :
  foldl (fun acc k => caches_delete k acc) cs ks = filter (fun nc => nc.1 ∉ ks) cs.
Proof.
  revert cs. induction ks as [|k ks IH]; intros cs; simpl.
  - induction cs as [|nc cs IHcs]; [done|].
    rewrite filter_cons_True by apply not_elem_of_nil. by f_equal.
  - rewrite IH. unfold caches_delete. rewrite list_filter_filter.
    apply list_filter_iff. intros nc. rewrite not_elem_of_cons. tauto.
Qed.

Lemma filter_agree {A} (P Q : A → Prop) `{!∀ x, Decision (P x)} `{!∀ x, Decision (Q x)}
    (l : list A) :
  (∀ x, x ∈ l → (P x ↔ Q x)) → filter P l = filter Q l.
Proof.
  induction l as [|a l IH]; intros Hl; [done|].
  assert (filter P l = filter Q l) as Htl.
  { apply IH. intros x Hx. apply Hl. by right. }
  destruct (decide (P a)) as [HP|HP].
  - rewrite !filter_cons_True; [by f_equal| |done]. apply Hl; [left|done].
  - rewrite !filter_cons_False; [done| |done]. intros HQ. apply HP, Hl; [left|done].
Qed.

Lemma activate_caches (w : Worker) :
  caches (activate w) = filter (fun nc => current nc.1) (caches w).
Proof.
  unfold activate; simpl. rewrite caches_delete_all.
  apply filter_agree. intros [n c] Hin; simpl.
  rewrite list_elem_of_filter, superseded_iff. unfold caches_keys.
  split.
  - intros Hno. destruct (decide (current n)) as [|Hn]; [done|].
    destruct Hno. split; [done|].
    by apply (list_elem_of_fmap_2 fst _ (n, c)).
  - tauto.
Qed.

Lemma caches_get_filter (P : string → Prop) `{!∀ n, Decision (P n)}
    (name : string) (cs : CacheStorage) :
  caches_get name (filter (fun nc => P nc.1) cs)
  = if decide (P name) then caches_get name cs else None.
Proof.
  induction cs as [|[n c] cs IH]; simpl.
  - by destruct (decide (P name)).
  - destruct (decide (P n)) as [Hn|Hn].
    + rewrite filter_cons_True by done. simpl.
      destruct (decide (n = name)) as [->|]; [|done].
      by destruct (decide (P name)).
    + rewrite filter_cons_False by done. rewrite IH.
      destruct (decide (n = name)) as [->|]; [|done].
      by destruct (decide (P name)).
Qed.

Lemma caches_find_Some (key : string) (cs : CacheStorage) (r : Response) :
  caches_find key cs = Some r → ∃ n c, (n, c) ∈ cs ∧ c !! key = Some r.
Proof.
  induction cs as [|[n c] cs IH]; simpl; [done|].
  destruct (c !! key) as [r'|] eqn:Hc.
  - intros [= ->]. exists n, c. split; [left|done].
  - intros Hr. destruct (IH Hr) as (n' & c' & Hin & Hr').
    exists n', c'. split; [by right|done].
Qed.

Lemma caches_match_Some (req : Request) (cs : CacheStorage) (r : Response) :
  caches_match req cs = Some r →
  method req = "GET" ∧ ∃ n c, (n, c) ∈ cs ∧ c !! url req = Some r.
Proof.
  unfold caches_match. case_bool_decide; [|done].
  intros Hr. split; [done|]. by apply caches_find_Some.
Qed.

Lemma cache_match_GET (name : string) (req : Request) (cs : CacheStorage) :
  method req = "GET" → cache_match name req cs = (c ← caches_get name cs; c !! url req).
Proof. intros Hget. unfold cache_match. by rewrite bool_decide_eq_true_2. Qed.

Lemma cache_match_Some (name : string) (req : Request) (cs : CacheStorage) (r : Response) :
  cache_match name req cs = Some r →
  method req = "GET" ∧ ∃ c, caches_get name cs = Some c ∧ c !! url req = Some r.
Proof.
  unfold cache_match. case_bool_decide; [|done].
  destruct (caches_get name cs) as [c|]; [|done]. simpl.
  intros Hr. split; [done|]. by exists c.
Qed.

Lemma caches_put_open (name key : string) (r : Response) (cs : CacheStorage) :
  caches_put name key r (caches_open name cs) = caches_put name key r cs.
Proof.
  unfold caches_open. destruct (caches_get name cs) as [c|] eqn:Hget; [done|].
  induction cs as [|[n c] cs IH]; simpl in *.
  - rewrite decide_True by done. by rewrite insert_empty.
  - destruct (decide (n = name)) as [->|Hn]; [done|]. by rewrite IH.
Qed.

Lemma caches_get_open (name name' : string) (cs : CacheStorage) :
  caches_get name' (caches_open name cs)
  = if decide (name' = name) then Some (default ∅ (caches_get name cs))
    else caches_get name' cs.
Proof.
  unfold caches_open. destruct (caches_get name cs) as [c|] eqn:Hget.
  - destruct (decide (name' = name)) as [->|]; [done|done].
  - induction cs as [|[n c] cs IH]; simpl in *.
    + destruct (decide (name' = name)) as [->|Hne].
      * by rewrite decide_True.
      * by rewrite decide_False.
    + destruct (decide (n = name)) as [->|Hn]; [done|].
      destruct (decide (n = name')) as [->|Hn'].
      * by rewrite decide_False.
      * by apply IH.
Qed.

Lemma caches_get_put (name key : string) (r : Response) (cs : CacheStorage) :
  caches_get name (caches_put name key r cs)
  = Some (<[ key := r ]> (default ∅ (caches_get name cs))).
Proof.
  induction cs as [|[n c] cs IH]; simpl.
  - rewrite decide_True by done. by rewrite insert_empty.
  - destruct (decide (n = name)) as [->|Hn]; simpl.
    + by rewrite decide_True.
    + by rewrite decide_False.
Qed.

Lemma cache_match_put (name : string) (req : Request) (r : Response) (cs : CacheStorage) :
  method req = "GET" →
  cache_match name req (caches_put name (url req) r cs) = Some r.
Proof.
  intros Hget. rewrite cache_match_GET by done.
  rewrite caches_get_put. simpl. apply lookup_insert_eq.
Qed.

Lemma put_accepts_true (req : Request) (r : Response) :
  put_accepts req r = true
  ↔ method req = "GET" ∧ http_scheme (url req) = true ∧ storable r = true.
Proof.
  unfold put_accepts. rewrite !andb_true_iff, bool_decide_eq_true. tauto.
Qed.

Lemma storable_true (r : Response) :
  storable r = true ↔ status r ≠ 206 ∧ "*" ∉ vary r.
Proof.
  unfold storable.
  rewrite andb_true_iff, !negb_true_iff, bool_decide_eq_false, Nat.eqb_neq. tauto.
Qed.

Lemma cache_put_accepted (name : string) (req : Request) (r : Response) (cs : CacheStorage) :
  put_accepts req r = true → cache_put name req r cs = caches_put name (url req) r cs.
Proof. intros Hput. unfold cache_put. by rewrite Hput. Qed.

Lemma cache_put_refused (name : string) (req : Request) (r : Response) (cs : CacheStorage) :
  put_accepts req r = false → cache_put name req r cs = cs.
Proof. intros Hput. unfold cache_put. by rewrite Hput. Qed.

(** C9. Activation deletes every cache generation that is neither the shell
    generation nor the API generation: no cache of such a name is left and
    no request is answered from it any more. The two current generations are
    kept with all their entries, and what is left of the cache storage is
    exactly the current generations, in their old order. *)
Theorem activate_evicts_superseded_generations (w : Worker) (name : string) (req : Request) :
  caches_get name (caches (activate w))
    = (if decide (current name) then caches_get name (caches w) else None)
  ∧ cache_match name req (caches (activate w))
    = (if decide (current name) then cache_match name req (caches w) else None)
  ∧ (name ∈ caches_keys (caches (activate w))
     ↔ name ∈ caches_keys (caches w) ∧ current name)
  ∧ (∀ r, caches_match req (caches (activate w)) = Some r →
       ∃ n c, current n ∧ (n, c) ∈ caches w ∧ c !! url req = Some r)
  ∧ controlling (activate w) = true.
Proof.
  rewrite activate_caches.
  assert (caches_get name (filter (fun nc => current nc.1) (caches w))
          = if decide (current name) then caches_get name (caches w) else None) as Hget
    by apply (caches_get_filter current).
  split; [done|]. split.
  { unfold cache_match. rewrite Hget.
    destruct (decide (current name)); [done|]. by case_bool_decide. }
  split; [|split; [|done]].
  - unfold caches_keys. rewrite !list_elem_of_fmap. split.
    + intros ([n c] & -> & Hin). apply list_elem_of_filter in Hin as [Hc Hin].
      split; [|done]. by exists (n, c).
    + intros [([n c] & -> & Hin) Hc]. exists (n, c). split; [done|].
      by apply list_elem_of_filter.
  - intros r Hr. apply caches_match_Some in Hr as (_ & n & c & Hin & Hr).
    apply list_elem_of_filter in Hin as [Hc Hin]. by exists n, c.
Qed.

Lemma activate_evicts_superseded_generations_witness :
  let old : Cache := {[ "/dashboard/app.js" := mkResponse 200 "old" None ]} in
  let w := mkWorker [("iacp-v0", old); (CACHE_NAME, ∅); (API_CACHE, ∅)] false false in
  let req := mkRequest "GET" "/dashboard/app.js" "app.example" "/dashboard/app.js" in
  cache_match "iacp-v0" req (caches w) = Some (mkResponse 200 "old" None)
  ∧ cache_match "iacp-v0" req (caches (activate w)) = None.
Proof.
  intros old w req. split; [reflexivity|].
  destruct (activate_evicts_superseded_generations w "iacp-v0" req) as (_ & Hgone & _).
  rewrite Hgone. reflexivity.
Defined.

Example activate_run :
  let old : Cache := {[ "/dashboard/app.js" := mkResponse 200 "old" None ]} in
  let shell : Cache := {[ "/dashboard/app.js" := mkResponse 200 "new" None ]} in
  let w := activate (mkWorker [("iacp-v0", old); (CACHE_NAME, shell); (API_CACHE, ∅)]
                       false false) in
  caches w = [(CACHE_NAME, shell); (API_CACHE, ∅)]
  ∧ caches_match (mkRequest "GET" "/dashboard/app.js" "app.example" "/dashboard/app.js")
      (caches w) = Some (mkResponse 200 "new" None).
Proof. split; reflexivity. Qed.

(** Installation is all or nothing: one failing precache fetch fails it. *)
Lemma install_fails_with_precache (net : string → option Response) (w : Worker) (u : string) :
  u ∈ PRECACHE_URLS → net u = None → install net w = None.
Proof.
  intros Hin Hnet. unfold install.
  assert (addAll_fetch net PRECACHE_URLS = None) as ->; [|done].
  induction PRECACHE_URLS as [|v urls IH]; [by apply elem_of_nil in Hin|].
  simpl. apply elem_of_cons in Hin as [<-|Hin]; [by rewrite Hnet|].
  destruct (net v) as [r|]; [|done]. destruct (ok r && storable r); [|done].
  by rewrite (IH Hin).
Qed.

(** *** Routing of requests *)

Lemma strategy_first_match (req : Request) :
  first_match priority_rules req = Some (strategy req).
Proof.
  unfold strategy, priority_rules; simpl.
  repeat case_match; reflexivity.
Qed.

(** C7. The listener classifies every request by the first rule that
    applies, in the order non-GET, GitHub API host, state-snapshot path
    marker, CDN host, anything else: a request that is not a GET is passed
    through whatever its host and path; a GET to the GitHub API host is
    answered network-first whatever its path; only then is the marker looked
    at. Hence a GET whose path contains the marker and whose host is not the
    GitHub API host is answered by stale-while-revalidate on the API cache,
    and by neither the network-first branch nor cache-first; every other GET
    is answered cache-first on the shell cache. *)
Theorem state_snapshot_routed_stale_while_revalidate
    (net : Network) (req : Request) (cs : CacheStorage) :
  first_match priority_rules req = Some (strategy req)
  ∧ (method req ≠ "GET" →
       strategy req = PassThrough ∧ onFetch net req cs = (None, cs))
  ∧ (method req = "GET" → hostname req = "api.github.com" →
       strategy req = NetworkFirst
       ∧ onFetch net req cs = (Some (networkFirst net req), cs))
  ∧ (method req = "GET" → hostname req ≠ "api.github.com" →
     includes "/_STATE/" (pathname req) = true →
       strategy req = StaleWhileRevalidate API_CACHE
       ∧ strategy req ≠ NetworkFirst
       ∧ (∀ cacheName, strategy req ≠ CacheFirst cacheName)
       ∧ onFetch net req cs
         = (Some (staleWhileRevalidate net req API_CACHE cs).1,
            (staleWhileRevalidate net req API_CACHE cs).2))
  ∧ (method req = "GET" → hostname req ≠ "api.github.com" →
     includes "/_STATE/" (pathname req) = false →
       strategy req = CacheFirst CACHE_NAME
       ∧ onFetch net req cs
         = (Some (cacheFirst net req CACHE_NAME cs).1,
            (cacheFirst net req CACHE_NAME cs).2)).
Proof.
  split; [apply strategy_first_match|].
  unfold onFetch, strategy. split_and!.
  - intros Hget. by rewrite bool_decide_eq_true_2.
  - intros Hget Hhost.
    rewrite bool_decide_eq_false_2 by (intros Hne; by apply Hne).
    by rewrite bool_decide_eq_true_2.
  - intros Hget Hhost Hpath. rewrite Hpath.
    rewrite bool_decide_eq_false_2 by (intros Hne; by apply Hne).
    rewrite bool_decide_eq_false_2 by done.
    split_and!; [done..|]. by destruct (staleWhileRevalidate net req API_CACHE cs).
  - intros Hget Hhost Hpath. rewrite Hpath.
    rewrite bool_decide_eq_false_2 by (intros Hne; by apply Hne).
    rewrite bool_decide_eq_false_2 by done.
    case_bool_decide; (split; [done|]);
      by destruct (cacheFirst net req CACHE_NAME cs).
Qed.

Lemma state_snapshot_routed_stale_while_revalidate_witness :
  let req := mkRequest "GET" "https://app.example/_STATE/org-index.json"
               "app.example" "/_STATE/org-index.json" in
  strategy req = StaleWhileRevalidate API_CACHE.
Proof.
  intros req.
  destruct (state_snapshot_routed_stale_while_revalidate (fun _ => None) req [])
    as (_ & _ & _ & Hmarker & _).
  apply Hmarker; [reflexivity | discriminate | reflexivity].
Defined.

(** The converse priority: on the GitHub API host the marker is not looked at. *)
Example api_host_before_marker :
  strategy (mkRequest "GET" "https://api.github.com/repos/o/r/contents/_STATE/x.json"
              "api.github.com" "/repos/o/r/contents/_STATE/x.json") = NetworkFirst.
Proof. reflexivity. Qed.

(** C8. A GET to the GitHub API host is answered from the network and leaves
    the cache storage as it was, whatever the network returns; when the fetch
    fails the answer is a response made up on the spot, whose body is the JSON
    text with the single member error set to offline. *)
Theorem github_api_network_first_never_cached
    (net : Network) (req : Request) (cs : CacheStorage) :
  method req = "GET" →
  hostname req = "api.github.com" →
  (onFetch net req cs).2 = cs
  ∧ (onFetch net req cs).1
    = Some (match net req with
            | Some response => JsResponse response
            | None => JsResponse (mkResponse 200 offlineErrorBody (Some "application/json"))
            end)
  ∧ (net req = None → ∃ r, (onFetch net req cs).1 = Some (JsResponse r)
                           ∧ body r = offlineErrorBody).
Proof.
  intros Hget Hhost.
  assert (strategy req = NetworkFirst) as Hs.
  { unfold strategy.
    rewrite bool_decide_eq_false_2 by (intros Hne; by apply Hne).
    by rewrite bool_decide_eq_true_2. }
  unfold onFetch, networkFirst. rewrite Hs. simpl.
  split; [done|]. split; [by destruct (net req)|].
  intros ->. by eexists.
Qed.

Lemma github_api_network_first_never_cached_witness :
  let req := mkRequest "GET" "https://api.github.com/rate_limit" "api.github.com"
               "/rate_limit" in
  let cs : CacheStorage := [(CACHE_NAME, ∅)] in
  (onFetch (fun _ => None) req cs).2 = cs.
Proof.
  intros req cs.
  apply (github_api_network_first_never_cached (fun _ => None) req cs);
    reflexivity.
Defined.

(** *** Cache-first *)

(** With nothing cached and the network down the page gets a 503. *)
Lemma cacheFirst_offline (net : Network) (req : Request) (name : string) (cs : CacheStorage) :
  caches_match req cs = None → net req = None →
  ∃ r, cacheFirst net req name cs = (JsResponse r, cs) ∧ status r = 503.
Proof.
  intros Hmiss Hnet. unfold cacheFirst. rewrite Hmiss, Hnet. by eexists.
Qed.

(** Only an ok response is stored. *)
Lemma cacheFirst_stores_ok_only (net : Network) (req : Request) (name : string)
    (cs : CacheStorage) (response : Response) :
  caches_match req cs = None → net req = Some response → ok response = false →
  cacheFirst net req name cs = (JsResponse response, cs).
Proof.
  intros Hmiss Hnet Hok. unfold cacheFirst. by rewrite Hmiss, Hnet, Hok.
Qed.

(** *** Stale-while-revalidate *)

(** A cached copy is what the page gets, and an ok response from the network
    that the cache accepts replaces the entry for next time. *)
Lemma staleWhileRevalidate_hit
    (net : Network) (req : Request) (name : string) (cs : CacheStorage) (cached : Response) :
  cache_match name req (caches_open name cs) = Some cached →
  (staleWhileRevalidate net req name cs).1 = JsResponse cached
  ∧ (∀ fresh, net req = Some fresh → ok fresh = true → put_accepts req fresh = true →
       cache_match name req (staleWhileRevalidate net req name cs).2 = Some fresh).
Proof.
  intros Hhit. unfold staleWhileRevalidate; cbn [fst snd]. rewrite Hhit. simpl.
  split; [done|]. intros fresh -> -> Hput. rewrite cache_put_accepted by done.
  apply cache_match_put. by apply put_accepts_true in Hput as [? _].
Qed.

(** A response that is not ok, or a failed fetch, leaves the cache as
    [caches.open] left it. *)
Lemma staleWhileRevalidate_keeps_entry
    (net : Network) (req : Request) (name : string) (cs : CacheStorage) :
  (∀ fresh, net req = Some fresh → ok fresh = false) →
  (staleWhileRevalidate net req name cs).2 = caches_open name cs.
Proof.
  intros Hbad. unfold staleWhileRevalidate; cbn [fst snd].
  destruct (net req) as [fresh|] eqn:Hnet; [|done].
  by rewrite (Hbad fresh).
Qed.

(** Without a cached copy the page gets what the network returned. *)
Lemma staleWhileRevalidate_miss_online
    (net : Network) (req : Request) (name : string) (cs : CacheStorage) (fresh : Response) :
  cache_match name req (caches_open name cs) = None →
  net req = Some fresh →
  (staleWhileRevalidate net req name cs).1 = JsResponse fresh.
Proof.
  intros Hmiss Hnet. unfold staleWhileRevalidate; cbn [fst snd].
  by rewrite Hmiss, Hnet.
Qed.

(** C3. With no cached copy and a failing fetch, [staleWhileRevalidate] does
    not reach the empty JSON response at the end of its return expression:
    the promise of the fetch is itself a truthy operand, so the function
    settles to what that promise settles to, which is null. *)
Theorem staleWhileRevalidate_miss_offline_null
    (net : Network) (req : Request) (name : string) (cs : CacheStorage) :
  cache_match name req (caches_open name cs) = None →
  net req = None →
  (staleWhileRevalidate net req name cs).1 = JsNull
  ∧ (staleWhileRevalidate net req name cs).1
    ≠ JsResponse (mkResponse 200 "{}" (Some "application/json")).
Proof.
  intros Hmiss Hnet. unfold staleWhileRevalidate; cbn [fst snd].
  by rewrite Hmiss, Hnet.
Qed.

Lemma staleWhileRevalidate_miss_offline_null_witness :
  (onFetch (fun _ => None)
     (mkRequest "GET" "https://app.example/_STATE/org-index.json" "app.example"
        "/_STATE/org-index.json") []).1 = Some JsNull.
Proof.
  pose proof (staleWhileRevalidate_miss_offline_null (fun _ => None)
    (mkRequest "GET" "https://app.example/_STATE/org-index.json" "app.example"
       "/_STATE/org-index.json") API_CACHE [] eq_refl eq_refl) as [H _].
  unfold onFetch; simpl strategy.
  exact (f_equal Some H).
Defined.

End ServiceWorkerSpec.

(** ** Properties of the Gateway and Vault panels *)

Module DashboardSpec.
Import Dashboard.

#[local] Arguments cfEndpoints : simpl never.
#[local] Arguments cfPanel : simpl never.
#[local] Arguments allAi : simpl never.
#[local] Arguments allEndpoints : simpl never.

(** *** Probing one endpoint *)

(** C2. A probe is online exactly when the network replied, with any status
    code and readable or opaque, before the five seconds of the abort timer
    were over. In every other case (a failure of any kind, a reply that comes
    too late, no reply) it is offline, and in no case does it reject. *)
Theorem probeEndpoint_online_iff_replied_in_time (fetch : string → NetEvent) (u : string) :
  (probeEndpoint fetch u = Fulfilled online
   ↔ ∃ t opaque code, fetch u = Replied t opaque code ∧ (t < 5000)%N)
  ∧ ((¬ ∃ t opaque code, fetch u = Replied t opaque code ∧ (t < 5000)%N)
     → probeEndpoint fetch u = Fulfilled offline)
  ∧ (∀ t reason, fetch u = Failed t reason → probeEndpoint fetch u = Fulfilled offline)
  ∧ (fetch u = Silent → probeEndpoint fetch u = Fulfilled offline)
  ∧ (∀ name, probeEndpoint fetch u ≠ Rejected name).
Proof.
  unfold probeEndpoint, fetch_with_abort.
  destruct (fetch u) as [t opaque code|t reason|] eqn:Hev.
  - destruct (N.ltb_spec t 5000) as [Hlt|Hge]; simpl; split_and!; try done.
    + split; [|done]. intros _. by exists t, opaque, code.
    + intros Hno. destruct Hno. by exists t, opaque, code.
    + split; [done|]. intros (t' & o' & c' & [= -> -> ->] & Hlt). lia.
  - destruct (t <? 5000)%N; simpl; split_and!; try done;
      (split; [done|]; by intros (? & ? & ? & [=] & _)).
  - simpl; split_and!; try done.
    split; [done|]. by intros (? & ? & ? & [=] & _).
Qed.

Lemma probeEndpoint_online_iff_replied_in_time_witness :
  probeEndpoint (fun _ => Failed 12 "net::ERR_NAME_NOT_RESOLVED") "https://vizual-x.com"
  = Fulfilled offline.
Proof.
  destruct (probeEndpoint_online_iff_replied_in_time
              (fun _ => Failed 12 "net::ERR_NAME_NOT_RESOLVED") "https://vizual-x.com")
    as (_ & _ & Hfailed & _).
  by apply (Hfailed 12%N "net::ERR_NAME_NOT_RESOLVED").
Defined.

Example probe_opaque_reply :
  probeEndpoint (fun _ => Replied 120 true 0) "http://localhost:11434" = Fulfilled online.
Proof. reflexivity. Qed.

Example probe_error_status :
  probeEndpoint (fun _ => Replied 4999 false 503) "https://api.groq.com" = Fulfilled online.
Proof. reflexivity. Qed.

Example probe_late_reply :
  probeEndpoint (fun _ => Replied 5000 false 200) "https://vizual-x.com" = Fulfilled offline.
Proof. reflexivity. Qed.

Example probe_dns_failure :
  probeEndpoint (fun _ => Failed 30 "DNS") "https://vizual-x.com" = Fulfilled offline.
Proof. reflexivity. Qed.

(** *** Saved overrides *)

Lemma saved_Some (st : gmap string string) (key v : string) :
  saved st key = Some v ↔ st !! key = Some v ∧ v ≠ EmptyString.
Proof.
  unfold saved. destruct (st !! key) as [[|c w]|]; simpl.
  - split; [done|]. by intros [[= <-] Hne].
  - split; [by intros [= <-]|]. by intros [[= <-] _].
  - split; [done|]. by intros [? _].
Qed.


Lemma lookup_setIfGiven_ne (key : string) (value : option string)
    (st : gmap string string) (k : string) :
  k ≠ key → setIfGiven key value st !! k = st !! k.
Proof.
  intros Hk. unfold setIfGiven. destruct value as [v|]; [|done].
  destruct (nonempty v); [|done]. by rewrite lookup_insert_ne.
Qed.

Lemma lookup_setIfGiven_eq (key : string) (value : option string)
    (st : gmap string string) :
  setIfGiven key value st !! key
  = match value with
    | Some v => if nonempty v then Some v else st !! key
    | None => st !! key
    end.
Proof.
  unfold setIfGiven. destruct value as [v|]; [|done].
  destruct (nonempty v); [|done]. by rewrite lookup_insert_eq.
Qed.

Lemma nonempty_true (s : string) : nonempty s = true ↔ s ≠ EmptyString.
Proof. by destruct s. Qed.

Lemma trim_nonempty (s : string) : trim s ≠ EmptyString → s ≠ EmptyString.
Proof. intros Ht ->. by apply Ht. Qed.

Lemma saveTunnelConfig_lookup_cf (p : Page) :
  storage (saveTunnelConfig p) !! GW_KEY_CF_URL
  = match settings_cf_tunnel_url (dom p) with
    | Some v => if nonempty (trim v) then Some (trim v) else storage p !! GW_KEY_CF_URL
    | None => storage p !! GW_KEY_CF_URL
    end.
Proof.
  unfold saveTunnelConfig; simpl.
  rewrite lookup_setIfGiven_ne by done. rewrite lookup_setIfGiven_eq.
  by destruct (settings_cf_tunnel_url (dom p)).
Qed.

Lemma saveTunnelConfig_lookup_gw (p : Page) :
  storage (saveTunnelConfig p) !! GW_KEY_CF_GW
  = match settings_cf_gateway_url (dom p) with
    | Some v => if nonempty (trim v) then Some (trim v) else storage p !! GW_KEY_CF_GW
    | None => storage p !! GW_KEY_CF_GW
    end.
Proof.
  unfold saveTunnelConfig; simpl. rewrite lookup_setIfGiven_eq.
  destruct (settings_cf_gateway_url (dom p)) as [v|]; simpl.
  - destruct (nonempty (trim v)); [done|]. by rewrite lookup_setIfGiven_ne.
  - by rewrite lookup_setIfGiven_ne.
Qed.

(** C10. Saving the tunnel configuration changes a stored override only when
    its input field holds something other than white space, and then stores
    the trimmed text of the field. With a field that is missing, empty or
    all white space the stored override stays exactly as it was, so a saved
    override is never removed nor emptied by saving; every other storage key
    keeps its value. *)
Theorem saveTunnelConfig_only_writes_given_overrides (p : Page) :
  let st := storage p in
  let st' := storage (saveTunnelConfig p) in
  let cfField := settings_cf_tunnel_url (dom p) in
  let gwField := settings_cf_gateway_url (dom p) in
  let blank (field : option string) :=
    field = None ∨ ∃ v, field = Some v ∧ trim v = EmptyString in
  (∀ k, k ≠ GW_KEY_CF_URL → k ≠ GW_KEY_CF_GW → st' !! k = st !! k)
  ∧ (blank cfField → st' !! GW_KEY_CF_URL = st !! GW_KEY_CF_URL)
  ∧ (blank gwField → st' !! GW_KEY_CF_GW = st !! GW_KEY_CF_GW)
  ∧ (∀ v, cfField = Some v → trim v ≠ EmptyString →
       st' !! GW_KEY_CF_URL = Some (trim v))
  ∧ (∀ v, gwField = Some v → trim v ≠ EmptyString →
       st' !! GW_KEY_CF_GW = Some (trim v))
  ∧ (st' !! GW_KEY_CF_URL ≠ st !! GW_KEY_CF_URL →
       ∃ v, cfField = Some v ∧ v ≠ EmptyString ∧ trim v ≠ EmptyString
            ∧ st' !! GW_KEY_CF_URL = Some (trim v))
  ∧ (st' !! GW_KEY_CF_GW ≠ st !! GW_KEY_CF_GW →
       ∃ v, gwField = Some v ∧ v ≠ EmptyString ∧ trim v ≠ EmptyString
            ∧ st' !! GW_KEY_CF_GW = Some (trim v))
  ∧ (is_Some (st !! GW_KEY_CF_URL) → is_Some (st' !! GW_KEY_CF_URL))
  ∧ (is_Some (st !! GW_KEY_CF_GW) → is_Some (st' !! GW_KEY_CF_GW))
  ∧ (is_Some (saved st GW_KEY_CF_URL) → is_Some (saved st' GW_KEY_CF_URL))
  ∧ (is_Some (saved st GW_KEY_CF_GW) → is_Some (saved st' GW_KEY_CF_GW)).
Proof.
  intros st st' cfField gwField blank.
  pose proof (saveTunnelConfig_lookup_cf p) as Hcf.
  pose proof (saveTunnelConfig_lookup_gw p) as Hgw.
  fold st st' cfField in Hcf. fold st st' gwField in Hgw.
  split_and!.
  - intros k Hk1 Hk2. unfold st', saveTunnelConfig; simpl.
    by rewrite !lookup_setIfGiven_ne.
  - rewrite Hcf. intros [-> | (v & -> & Hv)]; [done|]. by rewrite Hv.
  - rewrite Hgw. intros [-> | (v & -> & Hv)]; [done|]. by rewrite Hv.
  - intros v Hv Hne. rewrite Hcf, Hv.
    by rewrite (proj2 (nonempty_true (trim v)) Hne).
  - intros v Hv Hne. rewrite Hgw, Hv.
    by rewrite (proj2 (nonempty_true (trim v)) Hne).
  - rewrite Hcf. destruct cfField as [v|]; [|done].
    destruct (nonempty (trim v)) eqn:Hne; [|done].
    apply nonempty_true in Hne.
    intros _. exists v. split_and!; [done| |done|done].
    by apply trim_nonempty.
  - rewrite Hgw. destruct gwField as [v|]; [|done].
    destruct (nonempty (trim v)) eqn:Hne; [|done].
    apply nonempty_true in Hne.
    intros _. exists v. split_and!; [done| |done|done].
    by apply trim_nonempty.
  - rewrite Hcf. destruct cfField as [v|]; [|done].
    by destruct (nonempty (trim v)).
  - rewrite Hgw. destruct gwField as [v|]; [|done].
    by destruct (nonempty (trim v)).
  - unfold saved. rewrite Hcf. destruct cfField as [v|]; [|done].
    destruct (nonempty (trim v)) eqn:Hne; [|done]. rewrite Hne. by eexists.
  - unfold saved. rewrite Hgw. destruct gwField as [v|]; [|done].
    destruct (nonempty (trim v)) eqn:Hne; [|done]. rewrite Hne. by eexists.
Qed.

Example saveTunnelConfig_keeps_override_on_blank_field :
  let d := mkDom None None None None None (Some []) None None
             (Some "   ") (Some " https://gw.example ") in
  let p := mkPage {[ GW_KEY_CF_URL := "https://tunnel.example" ]} d [] in
  storage (saveTunnelConfig p)
  = <[ GW_KEY_CF_GW := "https://gw.example" ]> {[ GW_KEY_CF_URL := "https://tunnel.example" ]}.
Proof. reflexivity. Qed.

Lemma saveTunnelConfig_only_writes_given_overrides_witness :
  let p := mkPage {[ GW_KEY_CF_URL := "https://tunnel.example" ]}
             (freshDom EmptyString EmptyString EmptyString "https://gw.example") [] in
  storage (saveTunnelConfig p) !! GW_KEY_CF_URL = Some "https://tunnel.example"
  ∧ storage (saveTunnelConfig p) !! "iacp_theme" = None.
Proof.
  intros p.
  destruct (saveTunnelConfig_only_writes_given_overrides p) as (Hother & Hcf & _).
  split.
  - rewrite Hcf; [reflexivity|]. right. by exists EmptyString.
  - rewrite Hother; [reflexivity|discriminate..].
Defined.

(** *** Probe batches and the status map *)

Lemma probeEndpoint_terminal (fetch : string → NetEvent) (u : string) :
  probeEndpoint fetch u = Fulfilled online ∨ probeEndpoint fetch u = Fulfilled offline.
Proof.
  unfold probeEndpoint.
  destruct (fetch_with_abort 5000 (fetch u)) as [r|name]; [by left|].
  right. by case_bool_decide.
Qed.

Lemma Promise_all_imap_terminal {A} (f : nat → A → Settled Status) (l : list A) :
  (∀ i a, f i a = Fulfilled online ∨ f i a = Fulfilled offline) →
  ∃ rs, Promise_all (imap f l) = Fulfilled rs
        ∧ length rs = length l ∧ Forall terminal rs.
Proof.
  revert f. induction l as [|a l IH]; intros f Hf.
  - exists []. by split_and!.
  - rewrite imap_cons.
    destruct (IH (f ∘ S)) as (rs & Hrs & Hlen & Hall); [intros i b; apply Hf|].
    simpl. rewrite Hrs.
    destruct (Hf 0 a) as [-> | ->].
    + exists (online :: rs). split_and!; [done|by simpl; f_equal|].
      constructor; [by left|done].
    + exists (offline :: rs). split_and!; [done|by simpl; f_equal|].
      constructor; [by right|done].
Qed.

Lemma probeBatch_settles (net : nat → string → NetEvent) (eps : list Endpoint) :
  ∃ rs, probeBatch net eps = Fulfilled rs
        ∧ length rs = length eps ∧ Forall terminal rs.
Proof.
  unfold probeBatch. apply Promise_all_imap_terminal.
  intros i ep. apply probeEndpoint_terminal.
Qed.

Lemma statusMap_set_lookup (k k' : string) (s : Status) (m : gmap string Status) :
  statusMap_set k s m !! k'
  = if decide (k = k' ∧ k ≠ "__proto__") then Some s else m !! k'.
Proof.
  unfold statusMap_set. case_bool_decide as Hk.
  - rewrite decide_False; [done|]. by intros [_ ?].
  - rewrite lookup_insert. destruct (decide (k = k')) as [->|Hne].
    + by rewrite decide_True.
    + rewrite decide_False; [done|]. by intros [? _].
Qed.



(** The last assignment under a key decides; nothing is ever stored under
    the key __proto__. *)
Lemma foldl_set_lastResult (eps : list Endpoint) (rs : list Status)
    (m : gmap string Status) (k : string) :
  foldl (fun m er => statusMap_set (id er.1) er.2 m) m (zip eps rs) !! k
  = if decide (k = "__proto__") then m !! k
    else match lastResult k eps rs with
         | Some s => Some s
         | None => m !! k
         end.
Proof.
  revert rs m. induction eps as [|e eps IH]; intros [|r rs] m; simpl;
    try (by destruct (decide (k = "__proto__"))).
  rewrite IH, statusMap_set_lookup.
  destruct (decide (k = "__proto__")) as [->|Hk].
  - rewrite decide_False; [done|]. by intros [-> ?].
  - destruct (lastResult k eps rs); [done|].
    destruct (decide (id e = k)) as [Hid|Hid].
    + rewrite decide_True; [done|]. split; [done|]. by rewrite Hid.
    + rewrite decide_False; [done|]. by intros [? _].
Qed.

Lemma buildStatusMap_lastResult (eps : list Endpoint) (rs : list Status) (k : string) :
  buildStatusMap eps rs !! k
  = if decide (k = "__proto__") then None else lastResult k eps rs.
Proof.
  unfold buildStatusMap. rewrite foldl_set_lastResult.
  destruct (decide (k = "__proto__")); [done|].
  by destruct (lastResult k eps rs).
Qed.





Section WithPlatform.

Variable JSON_parse : string → option (list Endpoint).

Local Abbreviation allEps st := (allEndpoints JSON_parse st).
Local Abbreviation cfShown st := (cfPanel JSON_parse st).
Local Abbreviation aiShown st := (allAi JSON_parse st).

Lemma allEndpoints_panels (st : gmap string string) :
  allEps st = cfShown st ++ aiShown st.
Proof. unfold allEndpoints, cfPanel. by rewrite app_assoc. Qed.

Lemma cfEndpoints_eq (st : gmap string string) :
  cfEndpoints st
  = [ mkEndpoint "vizual-x" "vizual-x.com"
        (default "https://vizual-x.com" (saved st GW_KEY_CF_URL)) "☁️" "cf";
      mkEndpoint "infinityxai" "infinityxai.com"
        (default "https://infinityxai.com" (saved st GW_KEY_CF_GW)) "🤖" "ai" ].
Proof.
  unfold cfEndpoints, CF_ENDPOINTS, applyOverride; simpl.
  by destruct (saved st GW_KEY_CF_URL), (saved st GW_KEY_CF_GW).
Qed.



(** *** One run of [loadGateway] *)

Lemma loadGateway_runs (net : nat → string → NetEvent) (p : Page) :
  is_Some (gateway_cf_grid (dom p)) →
  is_Some (gateway_ai_grid (dom p)) →
  ∃ rs p0,
    probeBatch net (allEps (storage p)) = Fulfilled rs
    ∧ length rs = length (allEps (storage p))
    ∧ Forall terminal rs
    ∧ loadGateway_skeleton JSON_parse p = Some p0
    ∧ storage p0 = storage p
    ∧ loadGateway JSON_parse net p = Fulfilled (loadGateway_render JSON_parse rs p0).
Proof.
  intros [cf Hcf] [ai Hai].
  destruct (probeBatch_settles net (allEps (storage p))) as (rs & Hrs & Hlen & Hall).
  unfold loadGateway, loadGateway_skeleton. rewrite Hcf, Hai, Hrs.
  eexists rs, _. by split_and!.
Qed.

Lemma loadGateway_render_gateway (rs : list Status) (p0 : Page) :
  let m := buildStatusMap (allEps (storage p0)) rs in
  let d := dom (loadGateway_render JSON_parse rs p0) in
  gateway_cf_grid d
    = Some (Cards (map (fun ep => endpointCardHtml ep (statusOf m ep)) (cfShown (storage p0))))
  ∧ gateway_ai_grid d
    = Some (Cards (map (fun ep => endpointCardHtml ep (statusOf m ep)) (aiShown (storage p0)))).
Proof.
  unfold loadGateway_render, renderVaultEndpoints; simpl.
  by destruct (vault_endpoint_grid (dom p0)).
Qed.

Lemma renderVaultEndpoints_cards (items : list (Endpoint * Status)) (d : Dom) :
  items ≠ [] →
  is_Some (vault_endpoint_grid d) →
  vault_endpoint_grid (renderVaultEndpoints items d)
  = Some (Cards (map (fun it => endpointCardHtml it.1 it.2) items)).
Proof.
  intros Hne [v Hv]. unfold renderVaultEndpoints. rewrite Hv.
  by destruct items.
Qed.

Lemma cfPanel_nonempty (st : gmap string string) : cfShown st ≠ [].
Proof. unfold cfPanel. by rewrite cfEndpoints_eq. Qed.

Lemma loadGateway_render_vault (rs : list Status) (p0 : Page) :
  is_Some (vault_endpoint_grid (dom p0)) →
  let m := buildStatusMap (allEps (storage p0)) rs in
  vault_endpoint_grid (dom (loadGateway_render JSON_parse rs p0))
  = Some (Cards (map (fun ep => endpointCardHtml ep (statusOf m ep)) (cfShown (storage p0)))).
Proof.
  intros Hv m. unfold loadGateway_render. cbn [dom].
  rewrite renderVaultEndpoints_cards; [by rewrite map_map| |done].
  intros Hnil. apply fmap_nil_inv in Hnil. by apply cfPanel_nonempty in Hnil.
Qed.

Lemma loadGateway_skeleton_shown (p p0 : Page) :
  loadGateway_skeleton JSON_parse p = Some p0 →
  shownInGateway (dom p0)
  = map (fun ep => endpointCardHtml ep checking) (allEps (storage p))
  ∧ probed p0 = probed p ++ map url (allEps (storage p))
  ∧ vault_endpoint_grid (dom p0) = vault_endpoint_grid (dom p)
  ∧ storage p0 = storage p.
Proof.
  unfold loadGateway_skeleton.
  destruct (gateway_cf_grid (dom p)); [|done].
  destruct (gateway_ai_grid (dom p)); [|done].
  intros Heq. apply (inj Some) in Heq. subst p0.
  unfold shownInGateway, set_gateway_grids.
  cbn [dom storage probed gateway_cf_grid gateway_ai_grid vault_endpoint_grid cards_of].
  by rewrite allEndpoints_panels, map_app.
Qed.

Lemma loadGateway_render_shown (rs : list Status) (p0 : Page) :
  let m := buildStatusMap (allEps (storage p0)) rs in
  shownInGateway (dom (loadGateway_render JSON_parse rs p0))
  = map (fun ep => endpointCardHtml ep (statusOf m ep)) (allEps (storage p0)).
Proof.
  intros m. unfold shownInGateway.
  destruct (loadGateway_render_gateway rs p0) as [-> ->].
  cbn [cards_of]. rewrite <- map_app. by rewrite <- allEndpoints_panels.
Qed.

(** *** One run of [loadVault] *)

Lemma imap_results {A B C} (f : A → B → C) (d : B) (l : list A) (rs : list B) :
  length rs = length l →
  imap (fun i a => f a (default d (rs !! i))) l = zip_with f l rs.
Proof.
  intros Hlen. apply list_eq. intros i.
  rewrite list_lookup_imap, lookup_zip_with.
  destruct (l !! i) as [a|] eqn:Ha; simpl; [|done].
  destruct (rs !! i) as [r|] eqn:Hr; simpl; [done|].
  apply lookup_lt_Some in Ha. apply lookup_ge_None in Hr. lia.
Qed.

Lemma loadVault_skeleton_eq (p : Page) :
  is_Some (vault_grid (dom p)) →
  is_Some (vault_endpoint_grid (dom p)) →
  loadVault_skeleton p
  = Some (mkPage (storage p)
            (set_vault_endpoint_grid
               (Cards (map (fun ep => endpointCardHtml ep checking) (cfEndpoints (storage p))))
               (set_vault_grid vaultItemsMarkup (dom p)))
            (probed p ++ map url (cfEndpoints (storage p)))).
Proof.
  intros [g Hg] [v Hv]. unfold loadVault_skeleton. rewrite Hg.
  cbn [set_vault_grid vault_endpoint_grid]. by rewrite Hv.
Qed.

Lemma loadVault_runs (net : nat → string → NetEvent) (p : Page) :
  is_Some (vault_grid (dom p)) →
  is_Some (vault_endpoint_grid (dom p)) →
  ∃ rs q0,
    probeBatch net (cfEndpoints (storage p)) = Fulfilled rs
    ∧ length rs = length (cfEndpoints (storage p))
    ∧ Forall terminal rs
    ∧ loadVault_skeleton p = Some q0
    ∧ shownInVault (dom q0)
      = map (fun ep => endpointCardHtml ep checking) (cfEndpoints (storage p))
    ∧ loadVault net p = Fulfilled (loadVault_render rs q0)
    ∧ shownInVault (dom (loadVault_render rs q0))
      = zip_with endpointCardHtml (cfEndpoints (storage p)) rs
    ∧ shownInGateway (dom (loadVault_render rs q0)) = shownInGateway (dom p)
    ∧ probed (loadVault_render rs q0) = probed p ++ map url (cfEndpoints (storage p)).
Proof.
  intros Hg Hv.
  destruct (probeBatch_settles net (cfEndpoints (storage p))) as (rs & Hrs & Hlen & Hall).
  pose proof (loadVault_skeleton_eq p Hg Hv) as Hsk.
  eexists rs, _. split_and!; [done..|exact Hsk| | | | |].
  - done.
  - unfold loadVault. rewrite Hsk. cbn [dom set_vault_endpoint_grid vault_endpoint_grid].
    by rewrite Hrs.
  - unfold shownInVault, loadVault_render.
    cbn [dom storage set_vault_endpoint_grid vault_endpoint_grid cards_of].
    by apply imap_results.
  - done.
  - done.
Qed.






(** *** The two panels *)

Lemma elem_of_map_card (g : Endpoint → Status) (l : list Endpoint) (c : Card) :
  c ∈ map (fun ep => endpointCardHtml ep (g ep)) l → card_status c = g (card_ep c).
Proof.
  intros Hc. apply list_elem_of_In, in_map_iff in Hc as (ep & <- & _). done.
Qed.

Lemma one_status_map_agree (d : Dom) : one_status_map d → panels_agree d.
Proof.
  intros [m Hm] c1 c2 H1 H2 Hid.
  rewrite (Hm c1), (Hm c2) by (apply elem_of_app; auto).
  unfold statusOf. by rewrite Hid.
Qed.

Lemma loadGateway_shared_map (rs : list Status) (p0 : Page) :
  is_Some (vault_endpoint_grid (dom p0)) →
  let m := buildStatusMap (allEps (storage p0)) rs in
  let d := dom (loadGateway_render JSON_parse rs p0) in
  shownInGateway d = map (fun ep => endpointCardHtml ep (statusOf m ep)) (allEps (storage p0))
  ∧ shownInVault d = map (fun ep => endpointCardHtml ep (statusOf m ep)) (cfShown (storage p0))
  ∧ vault_endpoint_grid d = gateway_cf_grid d
  ∧ (∀ c, c ∈ shownInGateway d ++ shownInVault d → card_status c = statusOf m (card_ep c)).
Proof.
  intros Hv m d.
  pose proof (loadGateway_render_shown rs p0) as Hshown. cbv zeta in Hshown.
  pose proof (loadGateway_render_vault rs p0 Hv) as Hvault. cbv zeta in Hvault.
  destruct (loadGateway_render_gateway rs p0) as [Hcf _].
  fold m d in Hshown, Hvault, Hcf.
  assert (shownInVault d
          = map (fun ep => endpointCardHtml ep (statusOf m ep)) (cfShown (storage p0))) as Hsv.
  { unfold shownInVault. by rewrite Hvault. }
  split_and!; [done|done|by rewrite Hvault, Hcf|].
  intros c Hc. rewrite Hshown, Hsv in Hc.
  apply elem_of_app in Hc as [Hc|Hc]; by apply elem_of_map_card in Hc.
Qed.

(** C1, as the code has it. One run of [loadGateway] sends one batch, one
    probe for each endpoint of the merged list, and draws the tunnel grid and
    the AI grid of the Gateway panel and the endpoint grid of the Vault panel
    from the one status map built from that batch: the Vault grid gets the
    very cards of the tunnel grid, so the two panels show the same status for
    every endpoint id. Opening the Vault section runs [loadVault], which
    sends a batch of its own, one probe for each built-in tunnel endpoint,
    and redraws the Vault grid alone from it. *)
Theorem loadGateway_draws_both_panels_from_one_batch
    (net : nat → string → NetEvent) (p : Page) :
  is_Some (gateway_cf_grid (dom p)) →
  is_Some (gateway_ai_grid (dom p)) →
  is_Some (vault_endpoint_grid (dom p)) →
  ∃ rs p',
    probeBatch net (allEps (storage p)) = Fulfilled rs
    ∧ loadGateway JSON_parse net p = Fulfilled p'
    ∧ probed p' = probed p ++ map url (allEps (storage p))
    ∧ shownInGateway (dom p')
      = map (fun ep => endpointCardHtml ep
                         (statusOf (buildStatusMap (allEps (storage p)) rs) ep))
          (allEps (storage p))
    ∧ shownInVault (dom p')
      = map (fun ep => endpointCardHtml ep
                         (statusOf (buildStatusMap (allEps (storage p)) rs) ep))
          (cfShown (storage p))
    ∧ vault_endpoint_grid (dom p') = gateway_cf_grid (dom p')
    ∧ one_status_map (dom p')
    ∧ panels_agree (dom p')
    ∧ ∀ net2 q,
        is_Some (vault_grid (dom q)) →
        is_Some (vault_endpoint_grid (dom q)) →
        ∃ rs2 q',
          probeBatch net2 (cfEndpoints (storage q)) = Fulfilled rs2
          ∧ loadVault net2 q = Fulfilled q'
          ∧ probed q' = probed q ++ map url (cfEndpoints (storage q))
          ∧ shownInVault (dom q')
            = zip_with endpointCardHtml (cfEndpoints (storage q)) rs2
          ∧ shownInGateway (dom q') = shownInGateway (dom q).
Proof.
  intros Hcf Hai Hveg.
  destruct (loadGateway_runs net p Hcf Hai) as (rs & p0 & Hrs & Hlen & Hall & Hsk & Hst & Hrun).
  destruct (loadGateway_skeleton_shown p p0 Hsk) as (_ & Hprobed & Hv0 & _).
  rewrite <- Hv0 in Hveg.
  destruct (loadGateway_shared_map rs p0 Hveg) as (Hg & Hv & Heq & Hmap).
  rewrite Hst in Hg, Hv, Hmap.
  assert (one_status_map (dom (loadGateway_render JSON_parse rs p0))) as Hone.
  { by exists (buildStatusMap (allEps (storage p)) rs). }
  exists rs, (loadGateway_render JSON_parse rs p0).
  split_and!; try done; [by apply one_status_map_agree|].
  intros net2 q Hvg2 Hveg2.
  destruct (loadVault_runs net2 q Hvg2 Hveg2)
    as (rs2 & q0 & Hrs2 & _ & _ & _ & _ & Hrun2 & Hshown2 & Hgw2 & Hprobed2).
  by exists rs2, (loadVault_render rs2 q0).
Qed.

End WithPlatform.


Lemma loadGateway_draws_both_panels_from_one_batch_witness :
  ∃ rs p',
    probeBatch netUp (allEndpoints noParse ∅) = Fulfilled rs
    ∧ loadGateway noParse netUp (freshPage ∅) = Fulfilled p'
    ∧ vault_endpoint_grid (dom p') = gateway_cf_grid (dom p').
Proof.
  destruct (loadGateway_draws_both_panels_from_one_batch noParse netUp (freshPage ∅))
    as (rs & p' & H1 & H2 & _ & _ & _ & H3 & _); [by eexists..|].
  by exists rs, p'.
Defined.


(** The claim fails across the two loaders: after [loadGateway] has drawn both
    panels with the network up, [loadVault] probes the tunnel endpoints again
    and, the network now being down, leaves the Vault panel showing vizual-x
    offline next to a Gateway panel that shows it online. *)
Lemma vault_cycle_probes_again_and_disagrees :
  ∃ p1 p2,
    runCycle noParse GatewayCycle netUp (freshPage ∅) = Fulfilled p1
    ∧ runCycle noParse VaultCycle netDown p1 = Fulfilled p2
    ∧ mkCard (mkEndpoint "vizual-x" "vizual-x.com" "https://vizual-x.com" "☁️" "cf") online
      ∈ shownInGateway (dom p2)
    ∧ mkCard (mkEndpoint "vizual-x" "vizual-x.com" "https://vizual-x.com" "☁️" "cf") offline
      ∈ shownInVault (dom p2)
    ∧ ¬ panels_agree (dom p2)
    ∧ ¬ one_status_map (dom p2)
    ∧ probed p2
      = [ "https://vizual-x.com"; "https://infinityxai.com"; "http://localhost:11434";
          "https://api.groq.com"; "https://generativelanguage.googleapis.com";
          "https://vizual-x.com"; "https://infinityxai.com" ].
Proof.
  eexists _, _.
  split; [vm_compute; reflexivity|].
  split; [vm_compute; reflexivity|].
  split; [left|]. split; [left|].
  match goal with
  | |- ¬ panels_agree ?d ∧ _ =>
      assert (¬ panels_agree d) as Hno; [|split; [exact Hno|split; [|reflexivity]]]
  end.
  - intros Hagree.
    specialize (Hagree
      (mkCard (mkEndpoint "vizual-x" "vizual-x.com" "https://vizual-x.com" "☁️" "cf") online)
      (mkCard (mkEndpoint "vizual-x" "vizual-x.com" "https://vizual-x.com" "☁️" "cf") offline)).
    discriminate Hagree; [left|left|done].
  - intros Hone. by apply Hno, one_status_map_agree.
Qed.

(** *** Adding a custom endpoint *)

Lemma pretty_N_go_no_dash (x : N) (s : string) :
  has_char "-" s = false → has_char "-" (pretty_N_go x s) = false.
Proof.
  revert s. induction (N.lt_wf_0 x) as [x _ IH]; intros s Hs.
  assert (x = 0 ∨ 0 < x)%N as [->|Hpos] by lia.
  - by rewrite pretty_N_go_0.
  - rewrite pretty_N_go_step by done. apply IH; [by apply N.div_lt|].
    simpl. rewrite Hs. unfold pretty_N_char. by repeat case_match.
Qed.

Lemma pretty_N_no_dash (n : N) : has_char "-" (pretty n) = false.
Proof.
  unfold pretty, pretty_N. case_decide; [done|].
  by apply pretty_N_go_no_dash.
Qed.

Lemma append_dash_inj (a a' s s' : string) :
  has_char "-" a = false → has_char "-" a' = false →
  a +:+ String "-" s = a' +:+ String "-" s' → a = a' ∧ s = s'.
Proof.
  revert a'. induction a as [|c a IH]; intros [|c' a']; simpl.
  - by intros _ _ [= ->].
  - intros _ Hno [= <- _]. by rewrite Ascii.eqb_refl in Hno.
  - intros Hno _ [= -> _]. by rewrite Ascii.eqb_refl in Hno.
  - intros Hc Hc' [= -> Heq].
    apply orb_false_iff in Hc as [_ Hc]. apply orb_false_iff in Hc' as [_ Hc'].
    destruct (IH a' Hc Hc' Heq) as [-> ->]. done.
Qed.

Lemma customId_inj (now now' : N) (suffix suffix' : string) :
  customId now suffix = customId now' suffix' → now = now' ∧ suffix = suffix'.
Proof.
  unfold customId. intros Heq.
  apply (inj (String.app "custom-")) in Heq.
  apply append_dash_inj in Heq as [Hn Hs]; [|apply pretty_N_no_dash..].
  split; [|done]. by apply (inj pretty).
Qed.

Lemma builtin_id_not_custom (now : N) (suffix : string) (ep : Endpoint) :
  ep ∈ CF_ENDPOINTS ++ AI_ENDPOINTS → id ep ≠ customId now suffix.
Proof.
  intros Hin Heq. apply list_elem_of_In in Hin. simpl in Hin.
  unfold customId in Heq.
  destruct Hin as [<-|[<-|[<-|[<-|[<-|[]]]]]]; discriminate Heq.
Qed.

Section AddEndpoint.

Variable JSON_parse : string → option (list Endpoint).
Variable JSON_stringify : list Endpoint → string.
Variable URL_parses : string → bool.

Local Abbreviation add now suffix p :=
  (addGatewayEndpoint JSON_parse JSON_stringify URL_parses now suffix p).

(** C4, as the code has it. A label or URL that is empty once trimmed (or
    whose input is missing), or a URL the URL constructor rejects, gets an
    error toast and leaves the storage as it was. Otherwise the stored custom
    list becomes the old list with exactly one entry appended, and a refresh
    follows. The id of the new entry is custom-, the time stamp, a dash and
    the random suffix: it is not empty, it is no built-in id, and it differs
    from any id made from another time stamp or another suffix. It is not
    compared with the ids already in the list. *)
Theorem addGatewayEndpoint_validates_then_appends
    (now : N) (suffix : string) (p : Page) (toasts : list (string * string)) :
  toast_container (dom p) = Some toasts →
  let lbl := default EmptyString (fieldValue (gateway_new_label (dom p))) in
  let u := default EmptyString (fieldValue (gateway_new_url (dom p))) in
  (lbl = EmptyString ∨ u = EmptyString ∨ URL_parses u = false →
     storage (add now suffix p).1 = storage p
     ∧ (add now suffix p).2 = false
     ∧ ∃ msg, toast_container (dom (add now suffix p).1) = Some (toasts ++ [(msg, "error")]))
  ∧ (lbl ≠ EmptyString → u ≠ EmptyString → URL_parses u = true →
     storage (add now suffix p).1
     = <[ GW_KEY_CUSTOM :=
            JSON_stringify (readCustom JSON_parse (storage p)
                            ++ [mkEndpoint (customId now suffix) lbl u "🔗" "cf"]) ]>
         (storage p)
     ∧ (add now suffix p).2 = true)
  ∧ customId now suffix ≠ EmptyString
  ∧ (∀ ep, ep ∈ CF_ENDPOINTS ++ AI_ENDPOINTS → id ep ≠ customId now suffix)
  ∧ (∀ now' suffix', (now', suffix') ≠ (now, suffix) →
       customId now' suffix' ≠ customId now suffix).
Proof.
  intros Htoasts lbl u.
  assert (∀ msg, toast_container (dom (rejectInput msg p).1)
                 = Some (toasts ++ [(msg, "error")])) as Hreject.
  { intros msg. unfold rejectInput, showToast; simpl. by rewrite Htoasts. }
  split_and!.
  - intros Hbad. unfold addGatewayEndpoint. fold (fieldValue (gateway_new_label (dom p))).
    subst lbl u.
    destruct (fieldValue (gateway_new_label (dom p))) as [l|];
      [|split_and!; [done..|by eexists]].
    destruct (fieldValue (gateway_new_url (dom p))) as [v|];
      [|split_and!; [done..|by eexists]].
    simpl in Hbad.
    destruct (nonempty l && nonempty v) eqn:Hne;
      [|split_and!; [done..|by eexists]].
    destruct (URL_parses v) eqn:Hurl; [|split_and!; [done..|by eexists]].
    apply andb_true_iff in Hne as [Hl Hv].
    apply nonempty_true in Hl, Hv. by destruct Hbad as [?|[?|?]].
  - intros Hl Hu Hurl. unfold addGatewayEndpoint. subst lbl u.
    destruct (fieldValue (gateway_new_label (dom p))) as [l|]; [|done].
    destruct (fieldValue (gateway_new_url (dom p))) as [v|]; [|done].
    simpl in *. apply nonempty_true in Hl, Hu. by rewrite Hl, Hu, Hurl.
  - done.
  - intros ep Hep. by apply builtin_id_not_custom.
  - intros now' suffix' Hne Heq. apply customId_inj in Heq as [-> ->]. done.
Qed.

End AddEndpoint.

Lemma addGatewayEndpoint_validates_then_appends_witness :
  let p := mkPage ∅ (freshDom " X " "https://x.com" EmptyString EmptyString) [] in
  storage (addGatewayEndpoint noParse idsText (fun _ => true) 1700000000000 "k3j9x0a1b" p).1
  = {[ GW_KEY_CUSTOM := "custom-1700000000000-k3j9x0a1b" ]}.
Proof.
  intros p.
  destruct (addGatewayEndpoint_validates_then_appends noParse idsText (fun _ => true)
              1700000000000 "k3j9x0a1b" p [] eq_refl) as (_ & Hok & _).
  destruct Hok as [Hst _]; [done..|].
  rewrite Hst. reflexivity.
Defined.

(** The claim fails on the ids: the generated id is not compared with the
    stored ones, so an entry made in the same millisecond with the same random
    suffix (here already in the stored list) gets its id repeated. *)
Lemma generated_id_can_repeat_a_stored_id :
  let stored := mkEndpoint "custom-1700000000000-k3j9x0a1b" "A" "https://a.example" "🔗" "cf" in
  let parse := fun _ : string => Some [stored] in
  let p := mkPage {[ GW_KEY_CUSTOM := "[A]" ]}
             (freshDom "B" "https://b.example" EmptyString EmptyString) [] in
  let p' := (addGatewayEndpoint parse idsText (fun _ => true) 1700000000000 "k3j9x0a1b" p).1 in
  readCustom parse (storage p) = [stored]
  ∧ customId 1700000000000 "k3j9x0a1b" ∈ map id (readCustom parse (storage p))
  ∧ storage p' !! GW_KEY_CUSTOM
    = Some (idsText [stored;
                     mkEndpoint (customId 1700000000000 "k3j9x0a1b") "B" "https://b.example"
                       "🔗" "cf"])
  ∧ storage p' !! GW_KEY_CUSTOM
    = Some "custom-1700000000000-k3j9x0a1b,custom-1700000000000-k3j9x0a1b".
Proof.
  intros stored parse p p'.
  split; [reflexivity|]. split; [left|]. split; reflexivity.
Qed.

End DashboardSpec.

(** ** More on the service worker: installation and the three policies *)

Module ServiceWorkerLifecycle.
Import ServiceWorker.

Lemma caches_get_put_ne (name name' key : string) (r : Response) (cs : CacheStorage) :
  name' ≠ name → caches_get name' (caches_put name key r cs) = caches_get name' cs.
Proof.
  intros Hne. induction cs as [|[n c] cs IH]; simpl.
  - by rewrite decide_False.
  - destruct (decide (n = name)) as [->|Hn]; simpl.
    + by rewrite !decide_False.
    + destruct (decide (n = name')); [done|apply IH].
Qed.

Lemma stored_put (name key name' key' : string) (r : Response) (cs : CacheStorage) :
  stored name' key' (caches_put name key r cs)
  = if decide (name' = name ∧ key' = key) then Some r else stored name' key' cs.
Proof.
  unfold stored. destruct (decide (name' = name)) as [->|Hname].
  - rewrite ServiceWorkerSpec.caches_get_put. simpl.
    destruct (decide (key' = key)) as [->|Hkey].
    + rewrite decide_True by done. apply lookup_insert_eq.
    + rewrite decide_False by tauto. rewrite lookup_insert_ne by done.
      by destruct (caches_get name cs).
  - rewrite decide_False by tauto. by rewrite caches_get_put_ne.
Qed.

Lemma caches_get_app_None (name : string) (cs cs' : CacheStorage) :
  caches_get name cs = None → caches_get name (cs ++ cs') = caches_get name cs'.
Proof.
  induction cs as [|[n c] cs IH]; simpl; [done|].
  destruct (decide (n = name)); [done|apply IH].
Qed.

Lemma stored_open (name name' key : string) (cs : CacheStorage) :
  stored name' key (caches_open name cs) = stored name' key cs.
Proof.
  unfold stored, caches_open.
  destruct (caches_get name cs) as [c|] eqn:Hget; [done|].
  destruct (decide (name' = name)) as [->|Hne].
  - rewrite caches_get_app_None, Hget by done. simpl. by rewrite decide_True.
  - destruct (caches_get name' cs) as [c|] eqn:Hget'.
    + assert (caches_get name' (cs ++ [(name, ∅)]) = Some c) as ->; [|done].
      clear Hget. induction cs as [|[n d] cs IH]; simpl in *; [done|].
      destruct (decide (n = name')); [done|by apply IH].
    + rewrite caches_get_app_None by done. simpl. by rewrite decide_False.
Qed.

Lemma cache_match_stored (name : string) (req : Request) (cs : CacheStorage) :
  method req = "GET" → cache_match name req cs = stored name (url req) cs.
Proof. intros Hget. by rewrite ServiceWorkerSpec.cache_match_GET. Qed.

Lemma stored_cache_put (name name' key' : string) (req : Request) (r : Response)
    (cs : CacheStorage) :
  stored name' key' (cache_put name req r cs)
  = if decide (name' = name ∧ key' = url req ∧ put_accepts req r = true) then Some r
    else stored name' key' cs.
Proof.
  unfold cache_put. destruct (put_accepts req r) eqn:Hput.
  - rewrite stored_put. destruct (decide (name' = name ∧ key' = url req)) as [[-> ->]|Hne].
    + by rewrite decide_True.
    + rewrite decide_False; [done|]. intros (? & ? & _). by apply Hne.
  - rewrite decide_False; [done|]. by intros (_ & _ & ?).
Qed.

Lemma caches_find_put_miss (key name : string) (r : Response) (cs : CacheStorage) :
  caches_find key cs = None → caches_find key (caches_put name key r cs) = Some r.
Proof.
  induction cs as [|[n c] cs IH]; simpl.
  - intros _. by rewrite lookup_singleton_eq.
  - destruct (c !! key) as [x|] eqn:Hc; [done|]. intros Hmiss.
    destruct (decide (n = name)) as [->|Hn]; simpl.
    + by rewrite lookup_insert_eq.
    + rewrite Hc. by apply IH.
Qed.

Lemma caches_find_open (key name : string) (cs : CacheStorage) :
  caches_find key (caches_open name cs) = caches_find key cs.
Proof.
  unfold caches_open. destruct (caches_get name cs); [done|].
  induction cs as [|[n c] cs IH]; simpl; [done|].
  by destruct (c !! key).
Qed.

Lemma caches_match_open (req : Request) (name : string) (cs : CacheStorage) :
  caches_match req (caches_open name cs) = caches_match req cs.
Proof. unfold caches_match. by rewrite caches_find_open. Qed.

(** *** Installation *)









(** A partial response for one precache URL fails the installation, though
    the response is ok. *)
Example install_refuses_partial_response :
  let net := fun u : string =>
    Some (mkResponse (if String.eqb u "/dashboard/app.js" then 206 else 200) u None) in
  (∀ u, ∃ r, net u = Some r ∧ ok r = true)
  ∧ install net (mkWorker [] true false) = None.
Proof.
  intros net. split; [|reflexivity].
  intros u. eexists. split; [done|]. unfold net. cbn. by destruct (String.eqb _ _).
Qed.



(** *** The policies over several requests *)

Lemma strategy_PassThrough (req : Request) :
  strategy req = PassThrough ↔ method req ≠ "GET".
Proof.
  unfold strategy. case_bool_decide; [done|].
  split; [|done]. by repeat case_match.
Qed.

Lemma caches_match_put_miss (req : Request) (name : string) (r : Response)
    (cs : CacheStorage) :
  method req = "GET" →
  caches_match req cs = None →
  caches_match req (caches_put name (url req) r cs) = Some r.
Proof.
  unfold caches_match. intros Hget. rewrite !bool_decide_eq_true_2 by done.
  apply caches_find_put_miss.
Qed.

Lemma cacheFirst_miss (net : Network) (req : Request) (name : string) (cs : CacheStorage)
    (response : Response) :
  caches_match req cs = None →
  net req = Some response →
  ok response = true →
  cacheFirst net req name cs
  = (JsResponse response, cache_put name req response (caches_open name cs)).
Proof. intros Hmiss Hnet Hok. unfold cacheFirst. by rewrite Hmiss, Hnet, Hok. Qed.

(** X3. Cache-first, asked twice. A request that was not cached and is
    answered by an ok response from the network gets that response. When
    the cache accepts it (a GET for an http or https URL, a status other
    than 206, no wildcard in the Vary header), the same request is from then
    on answered with that response from the cache, whatever the network
    does, and the cache storage is not touched again. When the cache
    refuses it, nothing is stored, and the same request with the network
    down gets the 503 response. *)
Theorem cacheFirst_ok_response_served_again
    (net net' : Network) (req : Request) (name name' : string) (cs : CacheStorage)
    (response : Response) :
  caches_match req cs = None →
  net req = Some response →
  ok response = true →
  (cacheFirst net req name cs).1 = JsResponse response
  ∧ (put_accepts req response = true →
       cacheFirst net' req name' (cacheFirst net req name cs).2
       = (JsResponse response, (cacheFirst net req name cs).2))
  ∧ (put_accepts req response = false →
       (∀ n key, stored n key (cacheFirst net req name cs).2 = stored n key cs)
       ∧ (net' req = None →
            ∃ r, (cacheFirst net' req name' (cacheFirst net req name cs).2).1 = JsResponse r
                 ∧ status r = 503)).
Proof.
  intros Hmiss Hnet Hok. rewrite (cacheFirst_miss net req name cs response) by done.
  cbn [fst snd]. split_and!; [done| |].
  - intros Hput. rewrite ServiceWorkerSpec.cache_put_accepted by done.
    rewrite ServiceWorkerSpec.caches_put_open.
    apply ServiceWorkerSpec.put_accepts_true in Hput as (Hget & _).
    unfold cacheFirst.
    by rewrite (caches_match_put_miss req name response cs Hget Hmiss).
  - intros Hput. rewrite ServiceWorkerSpec.cache_put_refused by done.
    split; [intros n key; apply stored_open|].
    intros Hdown. unfold cacheFirst. rewrite caches_match_open, Hmiss, Hdown.
    by eexists.
Qed.

Lemma cacheFirst_ok_response_served_again_witness :
  let req := mkRequest "GET" "https://app.example/dashboard/app.js" "app.example"
               "/dashboard/app.js" in
  let page := mkResponse 200 "app" None in
  (cacheFirst (fun _ => None) req CACHE_NAME
     (cacheFirst (fun _ => Some page) req CACHE_NAME []).2).1 = JsResponse page.
Proof.
  intros req page.
  destruct (cacheFirst_ok_response_served_again (fun _ => Some page) (fun _ => None)
              req CACHE_NAME CACHE_NAME [] page eq_refl eq_refl eq_refl) as (_ & H & _).
  by rewrite (H eq_refl).
Defined.

(** A partial response is passed on but not kept: offline, the next request
    for the same URL gets the 503 response. *)
Example cacheFirst_partial_response_not_kept :
  let req := mkRequest "GET" "https://app.example/dashboard/app.js" "app.example"
               "/dashboard/app.js" in
  let part := mkResponse 206 "ap" None in
  (cacheFirst (fun _ => Some part) req CACHE_NAME []).1 = JsResponse part
  ∧ (cacheFirst (fun _ => None) req CACHE_NAME
       (cacheFirst (fun _ => Some part) req CACHE_NAME []).2).1
    = JsResponse (mkResponse 503 "Offline" (Some "text/plain;charset=UTF-8")).
Proof. split; reflexivity. Qed.

(** X4. What the listener hands to [respondWith]: nothing at all exactly for
    the requests that are not GET; otherwise a response, except in the one
    case of a state-snapshot request with no cached copy while the network
    is down, where it is null. *)
Theorem onFetch_answers_with_response_or_null
    (net : Network) (req : Request) (cs : CacheStorage) :
  ((onFetch net req cs).1 = None ↔ method req ≠ "GET")
  ∧ (∀ v, (onFetch net req cs).1 = Some v →
       (v = JsNull ∧ unanswerable net req cs)
       ∨ (∃ r, v = JsResponse r) ∧ ¬ unanswerable net req cs).
Proof.
  pose proof (strategy_PassThrough req) as Hpass.
  unfold onFetch, unanswerable.
  destruct (strategy req) as [| |name|name] eqn:Hs.
  - split; [by rewrite <- Hpass|]. by intros v [=].
  - split; [split; [done|]; by rewrite <- Hpass|].
    intros v [= <-]. right. unfold networkFirst.
    split; [destruct (net req); by eexists|]. by intros (? & [=] & _).
  - split.
    { destruct (staleWhileRevalidate net req name cs).
      split; [done|]. by rewrite <- Hpass. }
    unfold staleWhileRevalidate. cbn [fst]. cbv zeta.
    destruct (cache_match name req (caches_open name cs)) as [c|] eqn:Hc; cbn.
    + intros v [= <-]. right. split; [by eexists|].
      intros (name' & [= <-] & Hmiss & _). congruence.
    + destruct (net req) as [r|] eqn:Hnet; cbn.
      * intros v [= <-]. right. split; [by eexists|]. by intros (? & _ & _ & [=]).
      * intros v [= <-]. left. split; [done|]. by exists name.
  - split.
    { destruct (cacheFirst net req name cs).
      split; [done|]. by rewrite <- Hpass. }
    assert (∃ r, (cacheFirst net req name cs).1 = JsResponse r) as [r Hr].
    { unfold cacheFirst. destruct (caches_match req cs); [by eexists|].
      destruct (net req); by eexists. }
    destruct (cacheFirst net req name cs) as [v' cs']. simpl in *.
    intros v [= <-]. right. split; [by exists r|]. by intros (? & [=] & _).
Qed.

Lemma onFetch_answers_with_response_or_null_witness :
  (onFetch (fun _ => None)
     (mkRequest "GET" "https://cdnjs.cloudflare.com/x.js" "cdnjs.cloudflare.com" "/x.js")
     []).1
  ≠ Some JsNull.
Proof.
  intros Hnull.
  destruct (onFetch_answers_with_response_or_null (fun _ => None)
              (mkRequest "GET" "https://cdnjs.cloudflare.com/x.js" "cdnjs.cloudflare.com"
                 "/x.js") []) as [_ Hv].
  destruct (Hv JsNull Hnull) as [[_ (name & Hs & _)]|[[r Hr] _]]; discriminate.
Defined.

(** What a helper leaves in the cache storage: every stored response as it
    was, or the accepted ok response of the network under the URL of the
    request in the helper's cache and every other one as it was. *)
Lemma cacheFirst_stored (net : Network) (req : Request) (name : string)
    (cs : CacheStorage) :
  (∀ n key, stored n key (cacheFirst net req name cs).2 = stored n key cs)
  ∨ (∃ r, net req = Some r ∧ ok r = true ∧ put_accepts req r = true
          ∧ stored name (url req) (cacheFirst net req name cs).2 = Some r
          ∧ ∀ n key, n ≠ name ∨ key ≠ url req →
              stored n key (cacheFirst net req name cs).2 = stored n key cs).
Proof.
  unfold cacheFirst. destruct (caches_match req cs); [by left|].
  destruct (net req) as [r|]; [|by left].
  destruct (ok r) eqn:Hok; [|by left]. cbn [snd].
  destruct (put_accepts req r) eqn:Hput.
  - right. exists r. split_and!; [done..| |].
    + rewrite stored_cache_put. by rewrite decide_True.
    + intros n key Hne. rewrite stored_cache_put, decide_False, stored_open; [done|].
      intros (-> & -> & _). by destruct Hne.
  - left. intros n key. rewrite ServiceWorkerSpec.cache_put_refused by done.
    apply stored_open.
Qed.

Lemma staleWhileRevalidate_stored (net : Network) (req : Request) (name : string)
    (cs : CacheStorage) :
  (∀ n key, stored n key (staleWhileRevalidate net req name cs).2 = stored n key cs)
  ∨ (∃ r, net req = Some r ∧ ok r = true ∧ put_accepts req r = true
          ∧ stored name (url req) (staleWhileRevalidate net req name cs).2 = Some r
          ∧ ∀ n key, n ≠ name ∨ key ≠ url req →
              stored n key (staleWhileRevalidate net req name cs).2 = stored n key cs).
Proof.
  unfold staleWhileRevalidate. cbn [snd].
  destruct (net req) as [r|]; [|left; intros; apply stored_open].
  destruct (ok r) eqn:Hok; [|left; intros; apply stored_open].
  destruct (put_accepts req r) eqn:Hput.
  - right. exists r. split_and!; [done..| |].
    + rewrite stored_cache_put. by rewrite decide_True.
    + intros n key Hne. rewrite stored_cache_put, decide_False, stored_open; [done|].
      intros (-> & -> & _). by destruct Hne.
  - left. intros n key. rewrite ServiceWorkerSpec.cache_put_refused by done.
    apply stored_open.
Qed.

(** X5. Whatever the request and the network, handling a fetch changes at
    most one stored response. Either every stored response is as it was, or
    the request is a GET to a host other than the GitHub API host, the
    network has just returned an ok response that the cache accepts, that
    response is now stored under the URL of the request in the one cache of
    the branch taken (the API cache for stale-while-revalidate, the shell
    cache for cache-first), and every other stored response, in that cache
    and in all others, is as it was. *)
Theorem onFetch_stores_only_ok_response_of_request
    (net : Network) (req : Request) (cs : CacheStorage) :
  (∀ name key, stored name key (onFetch net req cs).2 = stored name key cs)
  ∨ (∃ name r,
       (strategy req = StaleWhileRevalidate name ∧ name = API_CACHE
        ∨ strategy req = CacheFirst name ∧ name = CACHE_NAME)
       ∧ method req = "GET"
       ∧ hostname req ≠ "api.github.com"
       ∧ net req = Some r ∧ ok r = true ∧ status r ≠ 206 ∧ ("*" ∉ vary r)
       ∧ stored name (url req) (onFetch net req cs).2 = Some r
       ∧ ∀ name' key', name' ≠ name ∨ key' ≠ url req →
           stored name' key' (onFetch net req cs).2 = stored name' key' cs).
Proof.
  assert (∀ r, put_accepts req r = true → status r ≠ 206 ∧ "*" ∉ vary r) as Hacc.
  { intros r Hput. apply ServiceWorkerSpec.put_accepts_true in Hput as (_ & _ & Hst).
    by apply ServiceWorkerSpec.storable_true. }
  unfold onFetch.
  assert (strategy req = PassThrough ∨ strategy req = NetworkFirst
          ∨ method req = "GET" ∧ hostname req ≠ "api.github.com"
            ∧ (strategy req = StaleWhileRevalidate API_CACHE
               ∨ strategy req = CacheFirst CACHE_NAME)) as Hs.
  { unfold strategy. case_bool_decide as Hget; [by left|].
    case_bool_decide as Hapi; [right; by left|].
    right. right. split; [done|]. split; [done|].
    destruct (includes "/_STATE/" (pathname req)); [by left|].
    right. by case_bool_decide. }
  destruct Hs as [->|[->|(Hget & Hapi & [Hs|Hs])]]; [by left|by left| |]; rewrite Hs.
  - destruct (staleWhileRevalidate_stored net req API_CACHE cs)
      as [Hsame|(r & Hnet & Hok & Hput & Hr & Hframe)];
      destruct (staleWhileRevalidate net req API_CACHE cs) as [v cs']; cbn [snd] in *;
      [by left|right].
    destruct (Hacc r Hput). exists API_CACHE, r. split_and!; try done. by left.
  - destruct (cacheFirst_stored net req CACHE_NAME cs)
      as [Hsame|(r & Hnet & Hok & Hput & Hr & Hframe)];
      destruct (cacheFirst net req CACHE_NAME cs) as [v cs']; cbn [snd] in *;
      [by left|right].
    destruct (Hacc r Hput). exists CACHE_NAME, r. split_and!; try done. by right.
Qed.

(** X6. Stale-while-revalidate over two requests: after a request whose
    fetch returned an ok response that the cache accepts (a GET for an http
    or https URL, a status other than 206, no wildcard in the Vary header),
    the next request for the same URL is answered with that response, with
    the network up or down. An ok response the cache refuses is not stored:
    the cache storage is as [caches.open] left it. *)
Theorem staleWhileRevalidate_serves_last_ok_response
    (net net' : Network) (req : Request) (name : string) (cs : CacheStorage)
    (fresh : Response) :
  net req = Some fresh →
  ok fresh = true →
  (put_accepts req fresh = true →
     (staleWhileRevalidate net' req name (staleWhileRevalidate net req name cs).2).1
     = JsResponse fresh)
  ∧ (put_accepts req fresh = false →
     (staleWhileRevalidate net req name cs).2 = caches_open name cs).
Proof.
  intros Hnet Hok. split; intros Hput.
  - assert (cache_match name req
              (caches_open name (staleWhileRevalidate net req name cs).2) = Some fresh) as Hhit.
    { rewrite cache_match_stored
        by (by apply ServiceWorkerSpec.put_accepts_true in Hput as [? _]).
      rewrite stored_open. unfold staleWhileRevalidate. cbn [snd].
      rewrite Hnet, Hok, stored_cache_put. by rewrite decide_True. }
    unfold staleWhileRevalidate at 1. cbn [fst]. cbv zeta. by rewrite Hhit.
  - unfold staleWhileRevalidate. cbn [snd]. rewrite Hnet, Hok.
    by apply ServiceWorkerSpec.cache_put_refused.
Qed.

Lemma staleWhileRevalidate_serves_last_ok_response_witness :
  let req := mkRequest "GET" "https://app.example/_STATE/org-index.json" "app.example"
               "/_STATE/org-index.json" in
  let snapshot := mkResponse 200 "{}" None in
  (staleWhileRevalidate (fun _ => None) req API_CACHE
     (staleWhileRevalidate (fun _ => Some snapshot) req API_CACHE []).2).1
  = JsResponse snapshot.
Proof.
  intros req snapshot.
  by apply (staleWhileRevalidate_serves_last_ok_response (fun _ => Some snapshot)
              (fun _ => None) req API_CACHE [] snapshot eq_refl eq_refl).
Defined.

(** A partial response is passed on but not kept: offline, the next request
    for the same state file settles to null. *)
Example staleWhileRevalidate_partial_response_not_kept :
  let req := mkRequest "GET" "https://app.example/_STATE/org-index.json" "app.example"
               "/_STATE/org-index.json" in
  let part := mkResponse 206 "{" None in
  (staleWhileRevalidate (fun _ => Some part) req API_CACHE []).1 = JsResponse part
  ∧ (staleWhileRevalidate (fun _ => None) req API_CACHE
       (staleWhileRevalidate (fun _ => Some part) req API_CACHE []).2).1 = JsNull.
Proof. split; reflexivity. Qed.

(** X7. A revalidation that fails, or returns a response that is not ok,
    keeps the stale copy: the request is answered with the cached copy and
    so is the next one, whatever the network does by then. *)
Theorem staleWhileRevalidate_keeps_stale_copy
    (net net' : Network) (req : Request) (name : string) (cs : CacheStorage)
    (stale : Response) :
  cache_match name req (caches_open name cs) = Some stale →
  (∀ r, net req = Some r → ok r = false) →
  (staleWhileRevalidate net req name cs).1 = JsResponse stale
  ∧ (staleWhileRevalidate net' req name (staleWhileRevalidate net req name cs).2).1
    = JsResponse stale.
Proof.
  intros Hhit Hbad.
  rewrite (ServiceWorkerSpec.staleWhileRevalidate_keeps_entry net req name cs Hbad).
  split.
  - unfold staleWhileRevalidate. cbn [fst]. cbv zeta. by rewrite Hhit.
  - assert (cache_match name req (caches_open name (caches_open name cs)) = Some stale) as Hhit'.
    { destruct (ServiceWorkerSpec.cache_match_Some _ _ _ _ Hhit) as [Hget _].
      rewrite cache_match_stored in * by done. by rewrite stored_open. }
    unfold staleWhileRevalidate. cbn [fst]. cbv zeta. by rewrite Hhit'.
Qed.

Lemma staleWhileRevalidate_keeps_stale_copy_witness :
  let req := mkRequest "GET" "https://app.example/_STATE/org-index.json" "app.example"
               "/_STATE/org-index.json" in
  let stale := mkResponse 200 "{}" None in
  let fresh := mkResponse 200 "{..}" None in
  let cs : CacheStorage := [(API_CACHE, {[ url req := stale ]})] in
  (staleWhileRevalidate (fun _ => Some fresh) req API_CACHE
     (staleWhileRevalidate (fun _ => Some (mkResponse 500 "oops" None)) req API_CACHE cs).2).1
  = JsResponse stale.
Proof.
  intros req stale fresh cs.
  apply (staleWhileRevalidate_keeps_stale_copy (fun _ => Some (mkResponse 500 "oops" None))
           (fun _ => Some fresh) req API_CACHE cs stale).
  - reflexivity.
  - by intros r [= <-].
Defined.

End ServiceWorkerLifecycle.

(** ** More on the Gateway panel *)

Module GatewaySpec.
Import Dashboard.

#[local] Arguments cfEndpoints : simpl never.
#[local] Arguments cfPanel : simpl never.
#[local] Arguments allAi : simpl never.
#[local] Arguments allEndpoints : simpl never.

(** *** Which probe a card shows *)

Lemma Promise_all_Fulfilled {A} (ps : list (Settled A)) (rs : list A) :
  Promise_all ps = Fulfilled rs → ps = map Fulfilled rs.
Proof.
  revert rs. induction ps as [|[a|e] ps IH]; intros rs; simpl.
  - by intros [= <-].
  - destruct (Promise_all ps) as [l|]; [|done].
    intros [= <-]. simpl. f_equal. by apply IH.
  - done.
Qed.

Lemma probeBatch_lookup (net : nat → string → NetEvent) (eps : list Endpoint)
    (rs : list Status) (i : nat) (ep : Endpoint) :
  probeBatch net eps = Fulfilled rs →
  eps !! i = Some ep →
  ∃ s, rs !! i = Some s ∧ probeEndpoint (net i) (url ep) = Fulfilled s.
Proof.
  unfold probeBatch. intros Hall Hep. apply Promise_all_Fulfilled in Hall.
  assert (imap (fun i ep => probeEndpoint (net i) (url ep)) eps !! i
          = Some (probeEndpoint (net i) (url ep))) as Hi.
  { by rewrite list_lookup_imap, Hep. }
  rewrite Hall in Hi. change (map Fulfilled rs) with (Fulfilled <$> rs) in Hi.
  rewrite list_lookup_fmap in Hi.
  destruct (rs !! i) as [s|]; [|done]. injection Hi as Hi. by exists s.
Qed.

Lemma lastResult_None (k : string) (eps : list Endpoint) (rs : list Status) :
  (∀ j e, eps !! j = Some e → id e ≠ k) → lastResult k eps rs = None.
Proof.
  revert rs. induction eps as [|e eps IH]; intros [|r rs] Hno; simpl; try done.
  rewrite IH; [|intros j e' He'; by apply (Hno (S j))].
  rewrite decide_False; [done|]. by apply (Hno 0).
Qed.

Lemma lastResult_last (k : string) (eps : list Endpoint) (rs : list Status)
    (j : nat) (e : Endpoint) (s : Status) :
  eps !! j = Some e → rs !! j = Some s → id e = k →
  (∀ j' e', j < j' → eps !! j' = Some e' → id e' ≠ k) →
  lastResult k eps rs = Some s.
Proof.
  revert rs j. induction eps as [|a eps IH]; intros [|r rs] j; try done.
  destruct j as [|j]; simpl.
  - intros [= ->] [= ->] Hid Hlast.
    rewrite lastResult_None; [by rewrite decide_True|].
    intros j' e' He'. apply (Hlast (S j')); [lia|done].
  - intros He Hs Hid Hlast.
    rewrite (IH rs j He Hs Hid); [done|].
    intros j' e' Hlt He'. apply (Hlast (S j')); [lia|done].
Qed.

Section Cards.

Variable JSON_parse : string → option (list Endpoint).

Local Abbreviation allEps st := (allEndpoints JSON_parse st).

Lemma loadGateway_card (net : nat → string → NetEvent) (p : Page)
    (i j : nat) (ep ep' : Endpoint) :
  is_Some (gateway_cf_grid (dom p)) →
  is_Some (gateway_ai_grid (dom p)) →
  allEps (storage p) !! i = Some ep →
  allEps (storage p) !! j = Some ep' →
  id ep' = id ep →
  id ep ≠ "__proto__" →
  (∀ j' e, j < j' → allEps (storage p) !! j' = Some e → id e ≠ id ep) →
  ∃ p' s,
    loadGateway JSON_parse net p = Fulfilled p'
    ∧ probeEndpoint (net j) (url ep') = Fulfilled s
    ∧ shownInGateway (dom p') !! i = Some (mkCard ep s).
Proof.
  intros Hcf Hai Hi Hj Hid Hproto Hlast.
  destruct (DashboardSpec.loadGateway_runs JSON_parse net p Hcf Hai)
    as (rs & p0 & Hrs & Hlen & Hall & Hsk & Hst & Hrun).
  destruct (probeBatch_lookup net _ rs j ep' Hrs Hj) as (s & Hs & Hprobe).
  exists (loadGateway_render JSON_parse rs p0), s. split_and!; [done|done|].
  pose proof (DashboardSpec.loadGateway_render_shown JSON_parse rs p0) as Hshown.
  cbv zeta in Hshown. rewrite Hshown, Hst.
  change (map ?f ?l) with (f <$> l). rewrite list_lookup_fmap, Hi. cbn.
  unfold endpointCardHtml, statusOf, statusMap_get. do 2 f_equal.
  rewrite bool_decide_eq_false_2 by done.
  rewrite DashboardSpec.buildStatusMap_lastResult, decide_False by done.
  by rewrite (lastResult_last (id ep) _ rs j ep' s Hj Hs Hid Hlast).
Qed.

(** X8. When several endpoints of a batch carry the same id, other than
    __proto__, every card with that id shows the outcome of the probe sent
    for the last of them in batch order, not the outcome of its own probe. *)
Theorem loadGateway_card_shows_last_probe_of_its_id
    (net : nat → string → NetEvent) (p : Page) (i j : nat) (ep ep' : Endpoint) :
  is_Some (gateway_cf_grid (dom p)) →
  is_Some (gateway_ai_grid (dom p)) →
  allEps (storage p) !! i = Some ep →
  allEps (storage p) !! j = Some ep' →
  id ep' = id ep →
  id ep ≠ "__proto__" →
  (∀ j' e, j < j' → allEps (storage p) !! j' = Some e → id e ≠ id ep) →
  ∃ p' s,
    loadGateway JSON_parse net p = Fulfilled p'
    ∧ probeEndpoint (net j) (url ep') = Fulfilled s
    ∧ shownInGateway (dom p') !! i = Some (mkCard ep s).
Proof. apply loadGateway_card. Qed.

(** X9. When the ids of the merged endpoint list are pairwise distinct, the
    card at each position whose endpoint id is not __proto__ shows the
    endpoint at that position of the batch with the outcome of that
    endpoint's own probe. *)
Theorem loadGateway_card_shows_own_probe
    (net : nat → string → NetEvent) (p : Page) (i : nat) (ep : Endpoint) :
  is_Some (gateway_cf_grid (dom p)) →
  is_Some (gateway_ai_grid (dom p)) →
  NoDup (map id (allEps (storage p))) →
  allEps (storage p) !! i = Some ep →
  id ep ≠ "__proto__" →
  ∃ p' s,
    loadGateway JSON_parse net p = Fulfilled p'
    ∧ probeEndpoint (net i) (url ep) = Fulfilled s
    ∧ shownInGateway (dom p') !! i = Some (mkCard ep s).
Proof.
  intros Hcf Hai Hnodup Hi Hproto.
  apply (loadGateway_card net p i i ep ep Hcf Hai Hi Hi eq_refl Hproto).
  intros j' e Hlt He Hid.
  assert (map id (allEps (storage p)) !! i = Some (id ep)) as H1.
  { change (map ?f ?l) with (f <$> l). by rewrite list_lookup_fmap, Hi. }
  assert (map id (allEps (storage p)) !! j' = Some (id ep)) as H2.
  { change (map ?f ?l) with (f <$> l). rewrite list_lookup_fmap, He. cbn.
    by rewrite Hid. }
  pose proof (NoDup_lookup _ _ _ _ Hnodup H1 H2). lia.
Qed.

End Cards.

Lemma loadGateway_card_shows_own_probe_witness :
  ∃ p', loadGateway noParse (fun i _ => if decide (i = 2) then Replied 10 true 0 else Silent)
          (freshPage ∅) = Fulfilled p'
        ∧ shownInGateway (dom p') !! 2
          = Some (mkCard (mkEndpoint "ollama-local" "Ollama (local)" "http://localhost:11434"
                            "🦙" "ai") online).
Proof.
  destruct (loadGateway_card_shows_own_probe noParse
              (fun i _ => if decide (i = 2) then Replied 10 true 0 else Silent)
              (freshPage ∅) 2
              (mkEndpoint "ollama-local" "Ollama (local)" "http://localhost:11434" "🦙" "ai"))
    as (p' & s & Hrun & Hprobe & Hcard).
  - by eexists.
  - by eexists.
  - apply (bool_decide_unpack _). vm_compute. exact I.
  - reflexivity.
  - discriminate.
  - exists p'. split; [done|]. rewrite Hcard.
    vm_compute in Hprobe. by injection Hprobe as <-.
Defined.

Lemma loadGateway_card_shows_last_probe_of_its_id_witness :
  let first := mkEndpoint "dup" "first" "https://one.example" "🔗" "cf" in
  let second := mkEndpoint "dup" "second" "https://two.example" "🔗" "cf" in
  let parse := fun _ : string => Some [first; second] in
  let net := fun (i : nat) (_ : string) => if decide (i = 3) then Replied 10 true 0 else Silent in
  ∃ p', loadGateway parse net (freshPage {[ GW_KEY_CUSTOM := "[..]" ]}) = Fulfilled p'
        ∧ probeEndpoint (net 2) (url first) = Fulfilled offline
        ∧ shownInGateway (dom p') !! 2 = Some (mkCard first online).
Proof.
  intros first second parse net.
  destruct (loadGateway_card_shows_last_probe_of_its_id parse net
              (freshPage {[ GW_KEY_CUSTOM := "[..]" ]}) 2 3 first second)
    as (p' & s & Hrun & Hprobe & Hcard).
  - by eexists.
  - by eexists.
  - reflexivity.
  - reflexivity.
  - reflexivity.
  - discriminate.
  - intros j' e Hlt He.
    do 7 (destruct j' as [|j']; [first [lia | injection He as <-; discriminate]|]).
    discriminate He.
  - exists p'. split_and!; [done|reflexivity|].
    rewrite Hcard. vm_compute in Hprobe. by injection Hprobe as <-.
Defined.

(** *** The sidebar dot *)

Lemma existsb_map_card (m : gmap string Status) (l : list Endpoint) :
  existsb (fun c => bool_decide (card_status c = online))
    (map (fun ep => endpointCardHtml ep (statusOf m ep)) l)
  = existsb (fun ep => bool_decide (statusMap_get m (id ep) = Own online)) l.
Proof.
  induction l as [|ep l IH]; [done|]. simpl. rewrite IH. f_equal.
  unfold statusOf. destruct (statusMap_get m (id ep)) as [[]| |]; reflexivity.
Qed.

Section NavDot.

Variable JSON_parse : string → option (list Endpoint).

(** X10. After a run of [loadGateway] the sidebar dot is online exactly when
    some card of the tunnel grid is online, and the warning dot otherwise;
    the cards of the AI grid have no part in it. *)
Theorem loadGateway_nav_dot_follows_tunnel_grid
    (net : nat → string → NetEvent) (p : Page) :
  is_Some (gateway_cf_grid (dom p)) →
  is_Some (gateway_ai_grid (dom p)) →
  is_Some (gateway_nav_dot (dom p)) →
  ∃ p',
    loadGateway JSON_parse net p = Fulfilled p'
    ∧ gateway_nav_dot (dom p')
      = Some (if existsb (fun c => bool_decide (card_status c = online))
                   (cards_of (gateway_cf_grid (dom p')))
              then "status-dot online" else "status-dot warning").
Proof.
  intros Hcf Hai [dot Hdot].
  destruct (DashboardSpec.loadGateway_runs JSON_parse net p Hcf Hai)
    as (rs & p0 & Hrs & Hlen & Hall & Hsk & Hst & Hrun).
  exists (loadGateway_render JSON_parse rs p0). split; [done|].
  destruct (DashboardSpec.loadGateway_render_gateway JSON_parse rs p0) as [-> _].
  cbn [cards_of]. rewrite existsb_map_card.
  assert (gateway_nav_dot (dom p0) = Some dot) as Hdot0.
  { unfold loadGateway_skeleton in Hsk.
    destruct (gateway_cf_grid (dom p)); [|done].
    destruct (gateway_ai_grid (dom p)); [|done].
    apply (inj Some) in Hsk. by subst p0. }
  unfold loadGateway_render, renderVaultEndpoints. cbn [dom].
  destruct (vault_endpoint_grid _); cbn; by rewrite Hdot0.
Qed.

End NavDot.

Lemma loadGateway_nav_dot_follows_tunnel_grid_witness :
  ∃ p', loadGateway noParse netDown (freshPage ∅) = Fulfilled p'
        ∧ gateway_nav_dot (dom p') = Some "status-dot warning".
Proof.
  destruct (loadGateway_nav_dot_follows_tunnel_grid noParse netDown (freshPage ∅))
    as (p' & Hrun & Hdot); [by eexists..|].
  exists p'. split; [done|]. rewrite Hdot.
  vm_compute in Hrun. injection Hrun as <-. reflexivity.
Defined.

(** *** Editing the custom list, then refreshing *)

Lemma saved_insert_ne (st : gmap string string) (key key' v : string) :
  key' ≠ key → saved (<[ key := v ]> st) key' = saved st key'.
Proof. intros Hne. unfold saved. by rewrite lookup_insert_ne. Qed.

Lemma saved_delete_ne (st : gmap string string) (key key' : string) :
  key' ≠ key → saved (delete key st) key' = saved st key'.
Proof. intros Hne. unfold saved. by rewrite lookup_delete_ne. Qed.

Lemma cfEndpoints_saved (st st' : gmap string string) :
  saved st' GW_KEY_CF_URL = saved st GW_KEY_CF_URL →
  saved st' GW_KEY_CF_GW = saved st GW_KEY_CF_GW →
  cfEndpoints st' = cfEndpoints st.
Proof. intros H1 H2. unfold cfEndpoints. by rewrite H1, H2. Qed.

Section CustomList.

Variable JSON_parse : string → option (list Endpoint).
Variable JSON_stringify : list Endpoint → string.
Variable URL_parses : string → bool.

(** X11. Adding, then reading back: when the platform reads back the list
    it has just written, an accepted endpoint is the last entry of the custom
    list from then on. It joins the tunnel panel, which the Vault grid also
    shows, after the entries already there; the AI panel and the built-in
    endpoints stay as they were. *)
Theorem added_endpoint_joins_tunnel_panel (now : N) (suffix : string) (p : Page) :
  let lbl := default EmptyString (fieldValue (gateway_new_label (dom p))) in
  let u := default EmptyString (fieldValue (gateway_new_url (dom p))) in
  let e := mkEndpoint (customId now suffix) lbl u "🔗" "cf" in
  let st' :=
    storage (addGatewayEndpoint JSON_parse JSON_stringify URL_parses now suffix p).1 in
  lbl ≠ EmptyString → u ≠ EmptyString → URL_parses u = true →
  JSON_stringify (readCustom JSON_parse (storage p) ++ [e]) ≠ EmptyString →
  JSON_parse (JSON_stringify (readCustom JSON_parse (storage p) ++ [e]))
  = Some (readCustom JSON_parse (storage p) ++ [e]) →
  readCustom JSON_parse st' = readCustom JSON_parse (storage p) ++ [e]
  ∧ cfPanel JSON_parse st' = cfPanel JSON_parse (storage p) ++ [e]
  ∧ allAi JSON_parse st' = allAi JSON_parse (storage p)
  ∧ cfEndpoints st' = cfEndpoints (storage p).
Proof.
  intros lbl u e st' Hlbl Hu Hurl Hne Hcodec.
  assert (st' = <[ GW_KEY_CUSTOM :=
                     JSON_stringify (readCustom JSON_parse (storage p) ++ [e]) ]>
                  (storage p)) as Hst.
  { subst st' e lbl u. unfold addGatewayEndpoint.
    destruct (fieldValue (gateway_new_label (dom p))) as [l|]; [|done].
    destruct (fieldValue (gateway_new_url (dom p))) as [v|]; [|done].
    cbn in *. apply DashboardSpec.nonempty_true in Hlbl, Hu.
    by rewrite Hlbl, Hu, Hurl. }
  assert (readCustom JSON_parse st' = readCustom JSON_parse (storage p) ++ [e]) as Hread.
  { unfold readCustom at 1.
    rewrite (proj2 (DashboardSpec.saved_Some st' GW_KEY_CUSTOM
                      (JSON_stringify (readCustom JSON_parse (storage p) ++ [e])))).
    - by rewrite Hcodec.
    - split; [|done]. rewrite Hst. apply lookup_insert_eq. }
  assert (cfEndpoints st' = cfEndpoints (storage p)) as Hcf.
  { apply cfEndpoints_saved; rewrite Hst; by apply saved_insert_ne. }
  split_and!; [done| | |done].
  - unfold cfPanel, cfCustom. rewrite Hcf, Hread, filter_app.
    rewrite (filter_cons_True _ e) by done. by rewrite filter_nil, app_assoc.
  - unfold allAi. rewrite Hread, filter_app.
    rewrite (filter_cons_False _ e) by (intros Hgroup; by apply Hgroup).
    by rewrite filter_nil, app_nil_r.
Qed.

(** X12. Clearing the custom endpoints removes the custom key and nothing
    else from the storage: the merged list is then the five built-in
    endpoints, the tunnel ones under their saved overrides as before, and a
    refresh is asked for. *)
Theorem clearCustomEndpoints_leaves_builtins (p : Page) :
  let p' := (clearCustomEndpoints p).1 in
  readCustom JSON_parse (storage p') = []
  ∧ allEndpoints JSON_parse (storage p') = cfEndpoints (storage p) ++ AI_ENDPOINTS
  ∧ length (allEndpoints JSON_parse (storage p')) = 5
  ∧ storage p' !! GW_KEY_CUSTOM = None
  ∧ (∀ k, k ≠ GW_KEY_CUSTOM → storage p' !! k = storage p !! k)
  ∧ (clearCustomEndpoints p).2 = true.
Proof.
  intros p'.
  assert (readCustom JSON_parse (storage p') = []) as Hread.
  { unfold readCustom, saved. subst p'. cbn [clearCustomEndpoints fst storage].
    by rewrite lookup_delete_eq. }
  assert (cfEndpoints (storage p') = cfEndpoints (storage p)) as Hcf.
  { apply cfEndpoints_saved; subst p'; cbn [clearCustomEndpoints fst storage];
      by apply saved_delete_ne. }
  assert (allEndpoints JSON_parse (storage p') = cfEndpoints (storage p) ++ AI_ENDPOINTS)
    as Hall.
  { unfold allEndpoints, cfCustom, allAi. rewrite Hread, Hcf.
    by rewrite !filter_nil, app_nil_r. }
  split_and!; [done|done| | | |done].
  - rewrite Hall, DashboardSpec.cfEndpoints_eq. reflexivity.
  - subst p'. cbn [clearCustomEndpoints fst storage]. apply lookup_delete_eq.
  - intros k Hk. subst p'. cbn [clearCustomEndpoints fst storage].
    by apply lookup_delete_ne.
Qed.

End CustomList.

Lemma added_endpoint_joins_tunnel_panel_witness :
  let e := mkEndpoint (customId 1700000000000 "k3j9x0a1b") "X" "https://x.com" "🔗" "cf" in
  let parse := fun text : string => if decide (text = "[X]") then Some [e] else None in
  let p := mkPage ∅ (freshDom " X " "https://x.com" EmptyString EmptyString) [] in
  cfPanel parse
    (storage (addGatewayEndpoint parse (fun _ => "[X]") (fun _ => true)
                1700000000000 "k3j9x0a1b" p).1)
  = cfEndpoints ∅ ++ [e].
Proof.
  intros e parse p.
  destruct (added_endpoint_joins_tunnel_panel parse (fun _ => "[X]") (fun _ => true)
              1700000000000 "k3j9x0a1b" p) as (_ & Hpanel & _); [done..|].
  exact Hpanel.
Defined.

Lemma clearCustomEndpoints_leaves_builtins_witness :
  let stored := mkEndpoint "custom-1-a" "A" "https://a.example" "🔗" "cf" in
  let parse := fun _ : string => Some [stored] in
  let p := freshPage {[ GW_KEY_CUSTOM := "[A]"; GW_KEY_CF_URL := "https://tunnel.example" ]} in
  length (allEndpoints parse (storage p)) = 6
  ∧ length (allEndpoints parse (storage (clearCustomEndpoints p).1)) = 5
  ∧ storage (clearCustomEndpoints p).1 !! GW_KEY_CF_URL = Some "https://tunnel.example".
Proof.
  intros stored parse p.
  destruct (clearCustomEndpoints_leaves_builtins parse p) as (_ & _ & Hlen & _ & Hkeep & _).
  split_and!; [reflexivity|exact Hlen|].
  rewrite Hkeep; [reflexivity|discriminate].
Defined.

(** *** Saving an override, then refreshing *)

(** X13. Saving the tunnel configuration with a field that is not blank
    makes the next merge use the trimmed text of that field as the URL of
    vizual-x (tunnel field) or of infinityxai (gateway field); the custom
    endpoint list is read as before. *)
Theorem saved_tunnel_config_is_merged (p : Page) :
  let st' := storage (saveTunnelConfig p) in
  (∀ v, settings_cf_tunnel_url (dom p) = Some v → trim v ≠ EmptyString →
     cfEndpoints st' !! 0
     = Some (mkEndpoint "vizual-x" "vizual-x.com" (trim v) "☁️" "cf"))
  ∧ (∀ v, settings_cf_gateway_url (dom p) = Some v → trim v ≠ EmptyString →
     cfEndpoints st' !! 1
     = Some (mkEndpoint "infinityxai" "infinityxai.com" (trim v) "🤖" "ai"))
  ∧ st' !! GW_KEY_CUSTOM = storage p !! GW_KEY_CUSTOM.
Proof.
  intros st'. split_and!.
  - intros v Hv Hne.
    assert (saved st' GW_KEY_CF_URL = Some (trim v)) as Hsaved.
    { apply DashboardSpec.saved_Some. split; [|done].
      unfold st'. rewrite DashboardSpec.saveTunnelConfig_lookup_cf, Hv.
      apply DashboardSpec.nonempty_true in Hne. by rewrite Hne. }
    by rewrite DashboardSpec.cfEndpoints_eq, Hsaved.
  - intros v Hv Hne.
    assert (saved st' GW_KEY_CF_GW = Some (trim v)) as Hsaved.
    { apply DashboardSpec.saved_Some. split; [|done].
      unfold st'. rewrite DashboardSpec.saveTunnelConfig_lookup_gw, Hv.
      apply DashboardSpec.nonempty_true in Hne. by rewrite Hne. }
    by rewrite DashboardSpec.cfEndpoints_eq, Hsaved.
  - unfold st', saveTunnelConfig. cbn [storage].
    by rewrite !DashboardSpec.lookup_setIfGiven_ne.
Qed.

Lemma saved_tunnel_config_is_merged_witness :
  let p := mkPage ∅ (freshDom EmptyString EmptyString "  https://t.example " EmptyString) [] in
  cfEndpoints (storage (saveTunnelConfig p)) !! 0
  = Some (mkEndpoint "vizual-x" "vizual-x.com" "https://t.example" "☁️" "cf").
Proof.
  intros p.
  destruct (saved_tunnel_config_is_merged p) as (Hcf & _).
  by apply (Hcf "  https://t.example ").
Defined.

(** *** What a refresh leaves alone *)

(** On the stored lists of the embedding (no list, text that does not
    parse, an array of endpoint records) a loader runs to its end and leaves
    the configuration alone. *)
Lemma runCycle_frame
    (JSON_parse : string → option (list Endpoint)) (c : Cycle)
    (net : nat → string → NetEvent) (p : Page) :
  ∃ p',
    runCycle JSON_parse c net p = Fulfilled p'
    ∧ storage p' = storage p
    ∧ toast_container (dom p') = toast_container (dom p)
    ∧ gateway_new_label (dom p') = gateway_new_label (dom p)
    ∧ gateway_new_url (dom p') = gateway_new_url (dom p)
    ∧ settings_cf_tunnel_url (dom p') = settings_cf_tunnel_url (dom p)
    ∧ settings_cf_gateway_url (dom p') = settings_cf_gateway_url (dom p)
    ∧ (c = VaultCycle →
         gateway_cf_grid (dom p') = gateway_cf_grid (dom p)
         ∧ gateway_ai_grid (dom p') = gateway_ai_grid (dom p)
         ∧ gateway_nav_dot (dom p') = gateway_nav_dot (dom p))
    ∧ (c = GatewayCycle → vault_grid (dom p') = vault_grid (dom p))
    ∧ (c = GatewayCycle →
         gateway_cf_grid (dom p) = None ∨ gateway_ai_grid (dom p) = None → p' = p)
    ∧ (c = VaultCycle → vault_grid (dom p) = None → p' = p).
Proof.
  destruct c; unfold runCycle.
  - unfold loadGateway, loadGateway_skeleton.
    destruct (gateway_cf_grid (dom p)) as [cf|] eqn:Hcf;
      [|exists p; split_and!; done].
    destruct (gateway_ai_grid (dom p)) as [ai|] eqn:Hai;
      [|exists p; split_and!; done].
    destruct (DashboardSpec.probeBatch_settles net (allEndpoints JSON_parse (storage p)))
      as (rs & -> & _ & _).
    eexists. split; [reflexivity|].
    unfold loadGateway_render, renderVaultEndpoints. cbn [dom storage].
    destruct (vault_endpoint_grid _); cbn; split_and!; try done; by intros _ [?|?].
  - unfold loadVault, loadVault_skeleton.
    destruct (vault_grid (dom p)) as [g|] eqn:Hg; [|exists p; split_and!; done].
    unfold set_vault_grid at 1. cbn [vault_endpoint_grid].
    destruct (vault_endpoint_grid (dom p)) as [v|] eqn:Hv.
    + unfold set_vault_endpoint_grid at 1. cbn [dom vault_endpoint_grid].
      destruct (DashboardSpec.probeBatch_settles net (cfEndpoints (storage p)))
        as (rs & -> & _ & _).
      eexists. split; [reflexivity|]. cbn. split_and!; done.
    + unfold set_vault_grid. cbn [dom vault_endpoint_grid]. rewrite Hv.
      eexists. split; [reflexivity|]. cbn. split_and!; done.
Qed.

(** X14. Probing never makes a loader fail: a probe batch always settles,
    with one result for each endpoint, and [loadVault], which reads nothing
    but the two override keys, always runs to its end. A run of either
    loader that reaches its end has not written to the storage, the toasts
    or the input fields. [loadVault] leaves the Gateway grids and the
    sidebar dot as they were, and [loadGateway] leaves the static Vault
    items; a loader whose first element is missing changes nothing. *)
Theorem refresh_cycle_keeps_configuration
    (JSON_parse : string → option (list Endpoint)) (c : Cycle)
    (net : nat → string → NetEvent) (p : Page) :
  (∃ q, loadVault net p = Fulfilled q)
  ∧ (∀ eps, ∃ rs, probeBatch net eps = Fulfilled rs ∧ length rs = length eps)
  ∧ ∀ p', runCycle JSON_parse c net p = Fulfilled p' →
      storage p' = storage p
      ∧ toast_container (dom p') = toast_container (dom p)
      ∧ gateway_new_label (dom p') = gateway_new_label (dom p)
      ∧ gateway_new_url (dom p') = gateway_new_url (dom p)
      ∧ settings_cf_tunnel_url (dom p') = settings_cf_tunnel_url (dom p)
      ∧ settings_cf_gateway_url (dom p') = settings_cf_gateway_url (dom p)
      ∧ (c = VaultCycle →
           gateway_cf_grid (dom p') = gateway_cf_grid (dom p)
           ∧ gateway_ai_grid (dom p') = gateway_ai_grid (dom p)
           ∧ gateway_nav_dot (dom p') = gateway_nav_dot (dom p))
      ∧ (c = GatewayCycle → vault_grid (dom p') = vault_grid (dom p))
      ∧ (c = GatewayCycle →
           gateway_cf_grid (dom p) = None ∨ gateway_ai_grid (dom p) = None → p' = p)
      ∧ (c = VaultCycle → vault_grid (dom p) = None → p' = p).
Proof.
  split_and!.
  - destruct (runCycle_frame JSON_parse VaultCycle net p) as (q & Hq & _). by exists q.
  - intros eps. destruct (DashboardSpec.probeBatch_settles net eps) as (rs & Hrs & Hlen & _).
    by exists rs.
  - intros p' Hrun. destruct (runCycle_frame JSON_parse c net p) as (p'' & Hrun' & Hframe).
    rewrite Hrun in Hrun'. injection Hrun' as <-. exact Hframe.
Qed.

Lemma refresh_cycle_keeps_configuration_witness :
  ∃ p', loadVault netDown (freshPage {[ GW_KEY_CF_URL := "https://t.example" ]}) = Fulfilled p'
        ∧ storage p' = {[ GW_KEY_CF_URL := "https://t.example" ]}
        ∧ gateway_cf_grid (dom p') = emptyGrid.
Proof.
  destruct (refresh_cycle_keeps_configuration noParse VaultCycle netDown
              (freshPage {[ GW_KEY_CF_URL := "https://t.example" ]}))
    as ([p' Hrun] & _ & Hframe).
  destruct (Hframe p' Hrun) as (Hst & _ & _ & _ & _ & _ & Hvault & _).
  destruct (Hvault eq_refl) as (Hcf & _).
  by exists p'.
Defined.

(** *** A stored list that does not parse *)

Section Unparseable.

Variable JSON_parse : string → option (list Endpoint).
Variable JSON_stringify : list Endpoint → string.
Variable URL_parses : string → bool.

(** X26. A stored custom list that does not parse is read as empty: the
    merged list is then the five built-in endpoints, and the next endpoint
    that is accepted replaces the stored text by the list holding that
    endpoint alone. *)
Theorem unparseable_custom_list_reads_as_empty
    (now : N) (suffix text : string) (p : Page) :
  let lbl := default EmptyString (fieldValue (gateway_new_label (dom p))) in
  let u := default EmptyString (fieldValue (gateway_new_url (dom p))) in
  storage p !! GW_KEY_CUSTOM = Some text →
  JSON_parse text = None →
  readCustom JSON_parse (storage p) = []
  ∧ allEndpoints JSON_parse (storage p) = cfEndpoints (storage p) ++ AI_ENDPOINTS
  ∧ (lbl ≠ EmptyString → u ≠ EmptyString → URL_parses u = true →
       storage (addGatewayEndpoint JSON_parse JSON_stringify URL_parses now suffix p).1
         !! GW_KEY_CUSTOM
       = Some (JSON_stringify [mkEndpoint (customId now suffix) lbl u "🔗" "cf"])).
Proof.
  intros lbl u Htext Hparse.
  assert (readCustom JSON_parse (storage p) = []) as Hread.
  { unfold readCustom, saved. rewrite Htext.
    destruct (nonempty text); [by rewrite Hparse|done]. }
  split_and!; [done| |].
  - unfold allEndpoints, cfCustom, allAi. rewrite Hread.
    by rewrite !filter_nil, app_nil_r.
  - intros Hlbl Hu Hurl. subst lbl u. unfold addGatewayEndpoint.
    destruct (fieldValue (gateway_new_label (dom p))) as [l|]; [|done].
    destruct (fieldValue (gateway_new_url (dom p))) as [v|]; [|done].
    cbn in *. apply DashboardSpec.nonempty_true in Hlbl, Hu.
    rewrite Hlbl, Hu, Hurl. cbn. rewrite Hread. apply lookup_insert_eq.
Qed.

End Unparseable.

Lemma unparseable_custom_list_reads_as_empty_witness :
  let p := mkPage {[ GW_KEY_CUSTOM := "[{oops" ]}
             (freshDom "X" "https://x.com" EmptyString EmptyString) [] in
  length (allEndpoints noParse (storage p)) = 5
  ∧ storage (addGatewayEndpoint noParse idsText (fun _ => true) 7 "abc" p).1
      !! GW_KEY_CUSTOM
    = Some "custom-7-abc".
Proof.
  intros p.
  destruct (unparseable_custom_list_reads_as_empty noParse idsText (fun _ => true)
              7 "abc" "[{oops" p eq_refl eq_refl) as (_ & Hall & Hadd).
  split; [by rewrite Hall|]. by rewrite Hadd.
Defined.

End GatewaySpec.

(** ** Properties of the GitHub API client *)

Module ApiSpec.
Import Dashboard Api.

(** *** Fetching and validating *)

Lemma slice0_length (n : nat) (s : string) : (String.length (slice0 n s) ≤ n)%nat.
Proof.
  revert s. induction n as [|n IH]; intros [|c s]; simpl; try lia.
  specialize (IH s). lia.
Qed.

Lemma slice0_short (n : nat) (s : string) :
  (String.length s ≤ n)%nat → slice0 n s = s.
Proof.
  revert s. induction n as [|n IH]; intros [|c s]; simpl; try done; [lia|].
  intros Hlen. f_equal. apply IH. lia.
Qed.

Lemma slice0_prefix (n : nat) (s : string) : ∃ rest, s = slice0 n s +:+ rest.
Proof.
  revert s. induction n as [|n IH]; intros s.
  - exists s. by destruct s.
  - destruct s as [|c s]; [by exists EmptyString|].
    destruct (IH s) as [rest Hrest]. exists rest.
    change (String c s = String c (slice0 n s +:+ rest)). by f_equal.
Qed.

Lemma saved_nonempty (st : gmap string string) (key v : string) :
  saved st key = Some v → v ≠ EmptyString.
Proof. intros Hv. by apply DashboardSpec.saved_Some in Hv as [_ ?]. Qed.

Lemma getOrg_nonempty (st : gmap string string) : getOrg st ≠ EmptyString.
Proof.
  unfold getOrg. destruct (saved st ORG_KEY) as [v|] eqn:Hv; simpl; [|done].
  by apply saved_nonempty in Hv.
Qed.

Lemma saved_insert_eq (st : gmap string string) (key v : string) :
  saved (<[ key := v ]> st) key = if nonempty v then Some v else None.
Proof. unfold saved. by rewrite lookup_insert_eq. Qed.

(** X15. [validateToken] never fails: it reports valid, with the user data,
    exactly when the reply has an ok status and a body that parses. For a
    reply with another status the error is the text GitHub API, the status
    and at most the first 200 characters of the body (all of it when it is
    no longer than that, nothing when it cannot be read). *)
Theorem validateToken_reports_the_reply {J}
    (net : string → list (string * string) → Reply J) (st : gmap string string) :
  let reply := net "https://api.github.com/user" (authHeaders st) in
  (∀ user, validateToken net st = Valid user
           ↔ ∃ status text, reply = Http status text (Fulfilled user)
                            ∧ okStatus status = true)
  ∧ (∀ status text json, reply = Http status text json → okStatus status = false →
       ∃ excerpt,
         validateToken net st
         = Invalid ("GitHub API " +:+ pretty status +:+ ": " +:+ excerpt)
         ∧ (String.length excerpt ≤ 200)%nat
         ∧ (∃ rest, default EmptyString text = excerpt +:+ rest)
         ∧ ((String.length (default EmptyString text) ≤ 200)%nat
            → excerpt = default EmptyString text))
  ∧ (∀ message, reply = NetworkError message → validateToken net st = Invalid message).
Proof.
  intros reply. unfold validateToken, ghFetch. fold reply. split_and!.
  - intros user. destruct reply as [message|status text [j|message]]; simpl.
    + split; [done|]. by intros (? & ? & [=] & _).
    + destruct (okStatus status) eqn:Hok.
      * split; [intros [= ->]; by eauto|]. by intros (? & ? & [= _ _ ->] & _).
      * split; [done|]. intros (? & ? & [= -> _ _] & Hok'). congruence.
    + destruct (okStatus status) eqn:Hok.
      * split; [done|]. by intros (? & ? & [=] & _).
      * split; [done|]. by intros (? & ? & [=] & _).
  - intros status text json -> Hok. simpl. rewrite Hok.
    exists (slice0 200 (default EmptyString text)).
    split_and!; [done|apply slice0_length|apply slice0_prefix|apply slice0_short].
  - by intros message ->.
Qed.

Lemma validateToken_reports_the_reply_witness :
  validateToken (J := string) (fun _ _ => Http 401 (Some "Bad credentials") (Rejected "x")) ∅
  = Invalid "GitHub API 401: Bad credentials".
Proof.
  destruct (validateToken_reports_the_reply (J := string)
              (fun _ _ => Http 401 (Some "Bad credentials") (Rejected "x")) ∅)
    as (_ & Hbad & _).
  destruct (Hbad 401%N (Some "Bad credentials") (Rejected "x") eq_refl eq_refl)
    as (excerpt & Hinvalid & _ & _ & Hshort).
  rewrite Hinvalid, Hshort; [reflexivity|]. cbn. lia.
Defined.

(** X16. Saving the settings stores a token and an organisation that are not
    blank before the token is validated and validates with what is then
    stored, so a token that turns out invalid stays stored. A blank field
    leaves the stored value alone; the organisation read back is never
    empty; no other key is written. *)
Theorem handleSettingsSave_stores_then_validates {J}
    (net : string → list (string * string) → Reply J)
    (tokenField orgField : string) (st : gmap string string) :
  let st' := (handleSettingsSave net tokenField orgField st).1.1 in
  let result := (handleSettingsSave net tokenField orgField st).1.2 in
  let toast := (handleSettingsSave net tokenField orgField st).2 in
  getToken st' = (if nonempty (trim tokenField) then trim tokenField else getToken st)
  ∧ getOrg st' = (if nonempty (trim orgField) then trim orgField else getOrg st)
  ∧ getOrg st' ≠ EmptyString
  ∧ result = validateToken net st'
  ∧ (∀ k, k ≠ TOKEN_KEY → k ≠ ORG_KEY → st' !! k = st !! k)
  ∧ (toast.2 = "error" ↔ ∃ message, result = Invalid message).
Proof.
  intros st' result toast.
  unfold handleSettingsSave in st', result, toast. cbn [fst snd] in st', result, toast.
  assert (TOKEN_KEY ≠ ORG_KEY) as Hkeys by done.
  split_and!.
  - unfold getToken, st', setOrg, setToken.
    destruct (nonempty (trim orgField)), (nonempty (trim tokenField)) eqn:Htok;
      rewrite ?(GatewaySpec.saved_insert_ne _ ORG_KEY TOKEN_KEY) by done;
      rewrite ?saved_insert_eq, ?Htok; done.
  - unfold getOrg, st', setOrg, setToken.
    destruct (nonempty (trim orgField)) eqn:Horg, (nonempty (trim tokenField));
      rewrite ?saved_insert_eq, ?Horg;
      rewrite ?(GatewaySpec.saved_insert_ne _ TOKEN_KEY ORG_KEY) by done; done.
  - apply getOrg_nonempty.
  - done.
  - intros k Hk1 Hk2. unfold st', setOrg, setToken.
    destruct (nonempty (trim orgField)), (nonempty (trim tokenField));
      by rewrite ?lookup_insert_ne.
  - unfold toast. fold result. destruct result; split; try done.
    + by intros [? [=]].
    + by eauto.
Qed.

Lemma handleSettingsSave_stores_then_validates_witness :
  let net := fun (_ : string) (headers : list (string * string)) =>
    if decide (("Authorization", "Bearer new") ∈ headers)
    then Http 401 (Some "Bad credentials") (Rejected "x")
    else Http 200 None (Fulfilled "octocat") in
  getToken (handleSettingsSave net " new " "" {[ TOKEN_KEY := "old" ]}).1.1 = "new"
  ∧ (handleSettingsSave net " new " "" {[ TOKEN_KEY := "old" ]}).1.2
    = Invalid "GitHub API 401: Bad credentials".
Proof.
  intros net.
  destruct (handleSettingsSave_stores_then_validates net " new " "" {[ TOKEN_KEY := "old" ]})
    as (Htoken & _ & _ & Hresult & _).
  split; [exact Htoken|]. rewrite Hresult. reflexivity.
Defined.

(** *** Pagination *)

Section Pagination.

Context {A : Type}.
Implicit Types api : nat → option string → Reply (GraphqlBody (option (Connection A))).

Lemma paginate_served api (pages : list (Connection A)) (i : nat) (after : option string)
    (acc : list A) (fuel : nat) :
  served api i after pages →
  paginate fuel api i after acc
  = if decide (length pages ≤ fuel)%nat
    then Some (Fulfilled (acc ++ concat (map nodes pages)))
    else None.
Proof.
  revert i after acc fuel.
  induction pages as [|page rest IH]; intros i after acc fuel; simpl; [done|].
  intros [Hpage Hrest]. destruct fuel as [|fuel]; cbn [paginate].
  - case_decide; [lia|done].
  - rewrite Hpage. destruct (hasNextPage page).
    + rewrite (IH _ _ _ _ Hrest), app_assoc.
      repeat case_decide; try lia; done.
    + subst rest. cbn. case_decide; [|lia]. by rewrite app_nil_r.
Qed.

Lemma paginate_failure api (pages : list (Connection A)) (message : string)
    (i : nat) (after : option string) (acc : list A) (fuel : nat) :
  servedUntilFailure api i after pages message →
  (length pages < fuel)%nat →
  paginate fuel api i after acc = Some (Rejected message).
Proof.
  revert i after acc fuel.
  induction pages as [|page rest IH]; intros i after acc [|fuel]; simpl; try lia.
  - by intros -> _.
  - intros (-> & -> & Hrest) Hlen. apply IH; [done|lia].
Qed.

(** X17. Pagination follows the cursors: when the server, asked from the
    start and then with each page's end cursor, hands out the pages [pages]
    and announces no further page on the last, [fetchOrgRepos] and
    [fetchOrgProjects] return the nodes of all pages in order, after exactly
    one request per page (fewer steps do not finish). *)
Theorem pagination_collects_every_page api (pages : list (Connection A)) (fuel : nat) :
  served api 0 None pages →
  ((length pages ≤ fuel)%nat →
     fetchOrgRepos fuel api = Some (Fulfilled (concat (map nodes pages)))
     ∧ fetchOrgProjects fuel api = Some (Fulfilled (concat (map nodes pages))))
  ∧ ((fuel < length pages)%nat →
     fetchOrgRepos fuel api = None ∧ fetchOrgProjects fuel api = None).
Proof.
  intros Hserved. unfold fetchOrgProjects, fetchOrgRepos.
  rewrite (paginate_served api pages 0 None [] fuel Hserved). simpl.
  split; intros Hfuel; case_decide; try lia; done.
Qed.

(** X18. When a request of the pagination fails, [fetchOrgRepos] fails with
    that error, and [fetchOrgProjects] returns the empty list: the pages it
    had already collected are dropped. [fetchOrgProjects] never fails. *)
Theorem pagination_failure_drops_collected_pages api (pages : list (Connection A))
    (message : string) (fuel : nat) :
  servedUntilFailure api 0 None pages message →
  (length pages < fuel)%nat →
  fetchOrgRepos fuel api = Some (Rejected message)
  ∧ fetchOrgProjects fuel api = Some (Fulfilled [])
  ∧ ∀ fuel' api' message', fetchOrgProjects fuel' api' ≠ Some (Rejected message').
Proof.
  intros Hfail Hfuel. unfold fetchOrgProjects, fetchOrgRepos.
  rewrite (paginate_failure api pages message 0 None [] fuel Hfail Hfuel).
  split_and!; [done|done|].
  intros fuel' api' message'.
  by destruct (paginate fuel' api' 0 None []) as [[|]|].
Qed.

End Pagination.

Lemma pagination_collects_every_page_witness :
  let api := fun (i : nat) (after : option string) =>
    Http 200 None
      (Fulfilled (mkGraphqlBody []
         (Some (if decide (after = None)
                then mkConnection ["core"; "tools"] true (Some "c1")
                else mkConnection ["sandbox"] false None)))) in
  fetchOrgRepos 2 api = Some (Fulfilled ["core"; "tools"; "sandbox"]).
Proof.
  intros api.
  destruct (pagination_collects_every_page api
              [mkConnection ["core"; "tools"] true (Some "c1");
               mkConnection ["sandbox"] false None] 2) as [Hdone _].
  - by repeat split.
  - destruct Hdone as [Hrepos _]; [simpl; lia|]. exact Hrepos.
Defined.

Lemma pagination_failure_drops_collected_pages_witness :
  let api := fun (i : nat) (after : option string) =>
    if decide (after = None)
    then Http 200 None
           (Fulfilled (mkGraphqlBody [] (Some (mkConnection ["p1"] true (Some "c1")))))
    else Http 502 None (Rejected "x") in
  fetchOrgRepos 5 api = Some (Rejected "GraphQL HTTP 502")
  ∧ fetchOrgProjects 5 api = Some (Fulfilled []).
Proof.
  intros api.
  destruct (pagination_failure_drops_collected_pages api
              [mkConnection ["p1"] true (Some "c1")] "GraphQL HTTP 502" 5)
    as (H1 & H2 & _).
  - by repeat split.
  - simpl. lia.
  - by split.
Defined.

(** *** Open pull requests *)

Section OpenPRs.

Context {P : Type}.
Implicit Types api : nat → string → Reply (list P).

Lemma fetchOpenPRs_loop_eq api (i : nat) (repos : list string) (results : list (P * string)) :
  fetchOpenPRs_loop api i repos results
  = results ++ concat (imap (fun j repo => contribution api (i + j) repo) repos).
Proof.
  revert i results. induction repos as [|repo repos IH]; intros i results.
  - simpl. by rewrite app_nil_r.
  - rewrite imap_cons. cbn [fetchOpenPRs_loop concat]. unfold contribution at 1.
    rewrite Nat.add_0_r.
    assert (imap ((fun j repo0 => contribution api (i + j) repo0) ∘ S) repos
            = imap (fun j repo0 => contribution api (S i + j) repo0) repos) as ->.
    { apply imap_ext. intros j repo0 _. cbn. f_equal. lia. }
    destruct (ghFetch_reply (api i repo)); rewrite IH; [by rewrite app_assoc|done].
Qed.

(** X19. [fetchOpenPRs] returns, repository after repository in the order
    given, the pull requests of every repository whose request succeeds,
    each tagged with the name of its repository; a repository whose request
    fails contributes nothing and does not disturb the others. With no
    repository it returns the empty list. *)
Theorem fetchOpenPRs_skips_unreadable_repos api (repos : list string) :
  fetchOpenPRs api repos = concat (imap (contribution api) repos)
  ∧ (∀ pr name, (pr, name) ∈ fetchOpenPRs api repos
       ↔ ∃ i prs, repos !! i = Some name
                  ∧ ghFetch_reply (api i name) = Fulfilled prs ∧ pr ∈ prs)
  ∧ fetchOpenPRs api [] = [].
Proof.
  assert (fetchOpenPRs api repos = concat (imap (contribution api) repos)) as Heq.
  { unfold fetchOpenPRs. by rewrite fetchOpenPRs_loop_eq. }
  split_and!; [done| |done].
  intros pr name. rewrite Heq, list_elem_of_In, in_concat. split.
  - intros (l & Hl & Hin). apply list_elem_of_In in Hl, Hin.
    apply elem_of_lookup_imap in Hl as (i & repo & -> & Hrepo).
    unfold contribution in Hin.
    destruct (ghFetch_reply (api i repo)) as [prs|] eqn:Hreply;
      [|by apply elem_of_nil in Hin].
    apply list_elem_of_In, in_map_iff in Hin as (pr' & [= -> ->] & Hpr).
    exists i, prs. split_and!; [done|done|by apply list_elem_of_In].
  - intros (i & prs & Hrepo & Hreply & Hpr).
    exists (contribution api i name). split.
    + apply list_elem_of_In.
      by apply (elem_of_lookup_imap_2 (contribution api) repos name i).
    + unfold contribution. rewrite Hreply.
      apply in_map_iff. exists pr. split; [done|]. by apply list_elem_of_In.
Qed.

End OpenPRs.

End ApiSpec.

(** ** Properties of the application controller *)

Module AppSpec.
Import Dashboard App.

#[local] Open Scope nat_scope.

(** *** Categories and counts *)

Lemma categorizeRepo_archived (r : Repo) : isArchived r = true → categorizeRepo r = archive.
Proof. intros Harch. unfold categorizeRepo. by rewrite Harch. Qed.

Lemma filter_none {A} (P : A → Prop) `{!∀ x, Decision (P x)} (l : list A) :
  (∀ x, x ∈ l → ¬ P x) → filter P l = [].
Proof.
  induction l as [|a l IH]; intros Hno; [done|].
  rewrite filter_cons_False by (apply Hno; left).
  apply IH. intros x Hx. apply Hno. by right.
Qed.

Lemma foldl_bump (repos : list Repo) (init : Category → nat) (c : Category) :
  foldl (fun counts r => bump (categorizeRepo r) counts) init repos c
  = init c + length (filter (fun r => categorizeRepo r = c) repos).
Proof.
  revert init. induction repos as [|r repos IH]; intros init; [simpl; lia|].
  cbn [foldl]. rewrite IH, filter_cons. unfold bump.
  destruct (decide (c = categorizeRepo r)) as [->|Hne].
  - rewrite decide_True by done. simpl. lia.
  - rewrite decide_False by done. lia.
Qed.

Lemma foldl_add (f : Repo → nat) (repos : list Repo) (acc : nat) :
  foldl (fun s r => s + f r) acc repos = acc + sum_list (map f repos).
Proof.
  revert acc. induction repos as [|r repos IH]; intros acc; simpl; [lia|].
  rewrite IH. lia.
Qed.

Lemma filter_three_le (repos : list Repo) (c1 c2 c3 : Category) :
  c1 ≠ c2 → c1 ≠ c3 → c2 ≠ c3 →
  length (filter (fun r => categorizeRepo r = c1) repos)
  + length (filter (fun r => categorizeRepo r = c2) repos)
  + length (filter (fun r => categorizeRepo r = c3) repos)
  ≤ length repos.
Proof.
  intros H12 H13 H23. induction repos as [|r repos IH]; simpl; [lia|].
  rewrite !filter_cons. repeat case_decide; simpl; try lia; congruence.
Qed.

(** X20. The category cards of the overview show, for core, sandbox and
    memory, the number of repositories of the index that [categorizeRepo]
    puts in that category; together they never exceed the total shown on
    the first card. The two other cards are the sums of the open pull
    requests and open issues. Archived repositories count in the total and
    in no category card. *)
Theorem renderKPIs_counts_by_category (repos : list Repo) :
  let count c := length (filter (fun r => categorizeRepo r = c) repos) in
  renderKPIs repos
  = [ ("TOTAL REPOS", length repos);
      ("OPEN PRs", sum_list (map openPullRequests repos));
      ("OPEN ISSUES", sum_list (map openIssues repos));
      ("CORE REPOS", count core); ("SANDBOX", count sandbox);
      ("MEMORY REPOS", count memory) ]
  ∧ count core + count sandbox + count memory ≤ length repos
  ∧ ((∀ r, r ∈ repos → isArchived r = true) →
       count core = 0 ∧ count sandbox = 0 ∧ count memory = 0).
Proof.
  intros count. split_and!.
  - unfold renderKPIs. by rewrite !foldl_bump, !foldl_add.
  - by apply filter_three_le.
  - intros Harch.
    assert (∀ c, c ≠ archive → count c = 0) as Hzero; [|by split_and!; apply Hzero].
    intros c Hc. unfold count.
    assert (filter (fun r => categorizeRepo r = c) repos = []) as ->; [|done].
    apply filter_none. intros r Hr Hcat.
    rewrite (categorizeRepo_archived r (Harch r Hr)) in Hcat. congruence.
Qed.

Lemma renderKPIs_counts_by_category_witness :
  let archived := mkRepo "infinity-core-old" [] true 3 1 in
  renderKPIs [archived] = [ ("TOTAL REPOS", 1); ("OPEN PRs", 3); ("OPEN ISSUES", 1);
                            ("CORE REPOS", 0); ("SANDBOX", 0); ("MEMORY REPOS", 0) ].
Proof.
  intros archived.
  destruct (renderKPIs_counts_by_category [archived]) as (Heq & _ & Harch).
  destruct Harch as (Hcore & Hsandbox & Hmemory).
  { intros r Hr. apply list_elem_of_singleton in Hr. by subst r. }
  rewrite Heq, Hcore, Hsandbox, Hmemory. reflexivity.
Defined.

(** *** Repositories by category *)

Lemma foldl_pushTo (repos : list Repo) (init : Category → list Repo) (c : Category) :
  foldl (fun groups r => pushTo (categorizeRepo r) r groups) init repos c
  = init c ++ filter (fun r => categorizeRepo r = c) repos.
Proof.
  revert init. induction repos as [|r repos IH]; intros init; [by rewrite app_nil_r|].
  cbn [foldl]. rewrite IH, filter_cons. unfold pushTo.
  destruct (decide (c = categorizeRepo r)) as [->|Hne].
  - rewrite decide_True by done. by rewrite <- app_assoc.
  - by rewrite decide_False by done.
Qed.

Lemma in_CATS (c : Category) : c ∈ CATS.
Proof. unfold CATS. destruct c; set_solver. Qed.

Lemma sizes_by_category (repos : list Repo) :
  sum_list (map (fun c => length (filter (fun r => categorizeRepo r = c) repos)) CATS)
  = length repos.
Proof.
  induction repos as [|r repos IH]; [done|].
  unfold CATS in *. cbn [map sum_list length] in *.
  unfold Datatypes.id in *. rewrite !filter_cons.
  destruct (categorizeRepo r); repeat (case_decide; try congruence);
    cbn [length]; lia.
Qed.

Lemma sum_list_filter_pos {A} (f : A → nat) (l : list A) :
  sum_list (map f (filter (fun a => 0 < f a) l)) = sum_list (map f l).
Proof.
  induction l as [|a l IH]; [done|].
  rewrite filter_cons. case_decide as Hpos.
  - cbn [map]. change (f a + sum_list (map f (filter (fun a => 0 < f a) l))
                       = f a + sum_list (map f l)).
    by rewrite IH.
  - cbn [map]. change (sum_list (map f (filter (fun a => 0 < f a) l))
                       = f a + sum_list (map f l)).
    rewrite IH. lia.
Qed.

(** X21. The industry view partitions the repositories: the groups shown
    are, in the fixed order of the categories, exactly the categories that
    have a repository, each with the repositories [categorizeRepo] puts
    there in their original order. Every repository is in the group of its
    category, and the group sizes add up to the number of repositories.
    With no repository the view is the empty state. *)
Theorem loadIndustry_groups_partition (repos : list Repo) :
  let group c := filter (fun r => categorizeRepo r = c) repos in
  repos ≠ [] →
  ∃ shown,
    loadIndustry repos = Groups shown
    ∧ shown = map (fun c => (c, group c)) (filter (fun c => 0 < length (group c)) CATS)
    ∧ (∀ r, r ∈ repos → (categorizeRepo r, group (categorizeRepo r)) ∈ shown)
    ∧ (∀ c g, (c, g) ∈ shown → g ≠ [] ∧ ∀ r, r ∈ g ↔ r ∈ repos ∧ categorizeRepo r = c)
    ∧ sum_list (map (fun cg => length cg.2) shown) = length repos.
Proof.
  intros group Hne.
  exists (map (fun c => (c, group c)) (filter (fun c => 0 < length (group c)) CATS)).
  assert (∀ c g,
    (c, g) ∈ map (fun c => (c, group c)) (filter (fun c => 0 < length (group c)) CATS)
    ↔ g = group c ∧ 0 < length (group c)) as Hshown.
  { intros c g. rewrite list_elem_of_In, in_map_iff. split.
    - intros (c' & [= -> <-] & Hin). apply list_elem_of_In, list_elem_of_filter in Hin.
      by destruct Hin.
    - intros [-> Hpos]. exists c. split; [done|].
      apply list_elem_of_In, list_elem_of_filter. split; [done|apply in_CATS]. }
  split_and!; [|done| | |].
  - unfold loadIndustry. destruct repos as [|r repos]; [done|]. f_equal.
    assert (∀ c, foldl (fun groups r0 => pushTo (categorizeRepo r0) r0 groups)
                   (fun _ => []) (r :: repos) c = group c) as Hgroups.
    { intros c. by rewrite foldl_pushTo. }
    rewrite (list_filter_iff _ (fun c => 0 < length (group c)))
      by (intros c; by rewrite Hgroups).
    apply map_ext. intros c. by rewrite Hgroups.
  - intros r Hr. apply Hshown. split; [done|].
    assert (r ∈ group (categorizeRepo r)) as Hin by (by apply list_elem_of_filter).
    destruct (group (categorizeRepo r)); [by apply elem_of_nil in Hin|simpl; lia].
  - intros c g Hcg. apply Hshown in Hcg as [-> Hpos]. split.
    + intros Hnil. rewrite Hnil in Hpos. simpl in Hpos. lia.
    + intros r. unfold group. rewrite list_elem_of_filter. tauto.
  - rewrite map_map. cbn [snd].
    rewrite (sum_list_filter_pos (fun c => length (group c)) CATS).
    apply sizes_by_category.
Qed.

Lemma loadIndustry_groups_partition_witness :
  let a := mkRepo "infinity-sandbox" [] false 0 0 in
  let b := mkRepo "infinity-core" ["control-plane"] false 2 0 in
  let c := mkRepo "Infinity-Core-Memory" [] false 0 0 in
  loadIndustry [a; b; c] = Groups [(core, [b; c]); (sandbox, [a])].
Proof.
  intros a b c.
  destruct (loadIndustry_groups_partition [a; b; c]) as (shown & -> & -> & _); [done|].
  reflexivity.
Defined.

(** *** Relative time *)

(** X22. [relativeTime] depends on the age in milliseconds alone: below an
    hour it gives the whole minutes, below a day the whole hours, below
    thirty days the whole days, from then on the date. For a stamp that is
    not in the future the minutes are at most 59, the hours between 1 and
    23 and the days between 1 and 29; a stamp in the future always gives
    minutes, with a negative number. *)
Theorem relativeTime_thresholds (now t : Z) :
  let diff := (now - t)%Z in
  relativeTime now (At t)
  = (if (diff <? 3600000)%Z then Minutes (diff `div` 60000)
     else if (diff <? 86400000)%Z then Hours (diff `div` 3600000)
     else if (diff <? 2592000000)%Z then Days (diff `div` 86400000)
     else LocaleDate)
  ∧ (∀ n, relativeTime now (At t) = Minutes n → (0 ≤ diff)%Z → (0 ≤ n < 60)%Z)
  ∧ (∀ n, relativeTime now (At t) = Hours n → (1 ≤ n < 24)%Z)
  ∧ (∀ n, relativeTime now (At t) = Days n → (1 ≤ n < 30)%Z)
  ∧ ((diff < 0)%Z → ∃ n, relativeTime now (At t) = Minutes n ∧ (n < 0)%Z).
Proof.
  intros diff.
  assert (relativeTime now (At t)
    = (if (diff <? 3600000)%Z then Minutes (diff `div` 60000)
       else if (diff <? 86400000)%Z then Hours (diff `div` 3600000)
       else if (diff <? 2592000000)%Z then Days (diff `div` 86400000)
       else LocaleDate)) as Heq.
  { unfold relativeTime. fold diff.
    rewrite !Z.div_div by lia.
    change (60000 * 60)%Z with 3600000%Z. change (3600000 * 24)%Z with 86400000%Z.
    pose proof (Z.div_lt_upper_bound diff 60000 60).
    pose proof (Z.div_le_lower_bound diff 60000 60).
    pose proof (Z.div_lt_upper_bound diff 3600000 24).
    pose proof (Z.div_le_lower_bound diff 3600000 24).
    pose proof (Z.div_lt_upper_bound diff 86400000 30).
    pose proof (Z.div_le_lower_bound diff 86400000 30).
    repeat case_match; try done;
      repeat match goal with
      | H : (_ <? _)%Z = true |- _ => apply Z.ltb_lt in H
      | H : (_ <? _)%Z = false |- _ => apply Z.ltb_ge in H
      end; lia. }
  split; [done|]. rewrite Heq.
  pose proof (Z.div_lt_upper_bound diff 60000 60).
  pose proof (Z.div_pos diff 60000).
  pose proof (Z.div_lt_upper_bound diff 3600000 24).
  pose proof (Z.div_le_lower_bound diff 3600000 1).
  pose proof (Z.div_lt_upper_bound diff 86400000 30).
  pose proof (Z.div_le_lower_bound diff 86400000 1).
  pose proof (Z.div_lt_upper_bound diff 60000 0).
  split_and!.
  - intros n. repeat case_match; intros [= <-] Hpos;
      repeat match goal with
      | H : (_ <? _)%Z = true |- _ => apply Z.ltb_lt in H
      | H : (_ <? _)%Z = false |- _ => apply Z.ltb_ge in H
      end; lia.
  - intros n. repeat case_match; intros [= <-];
      repeat match goal with
      | H : (_ <? _)%Z = true |- _ => apply Z.ltb_lt in H
      | H : (_ <? _)%Z = false |- _ => apply Z.ltb_ge in H
      end; lia.
  - intros n. repeat case_match; intros [= <-];
      repeat match goal with
      | H : (_ <? _)%Z = true |- _ => apply Z.ltb_lt in H
      | H : (_ <? _)%Z = false |- _ => apply Z.ltb_ge in H
      end; lia.
  - intros Hneg. exists (diff `div` 60000)%Z.
    destruct (Z.ltb_spec diff 3600000); [|lia]. split; [done|lia].
Qed.

Lemma relativeTime_thresholds_witness :
  relativeTime 1700000000000 (At 1700000120000) = Minutes (-2).
Proof.
  destruct (relativeTime_thresholds 1700000000000 1700000120000)
    as (_ & _ & _ & _ & Hfuture).
  destruct Hfuture as (n & Hn & _); [lia|]. reflexivity.
Defined.

(** *** Routing *)

Lemma section_known (target : string) :
  target ∈ SECTIONS →
  target ≠ EmptyString
  ∧ is_Some (loadSection target)
  ∧ is_Some (assoc target sectionLabels).
Proof.
  intros Hin. apply list_elem_of_In in Hin. unfold SECTIONS in Hin. simpl in Hin.
  repeat (destruct Hin as [<-|Hin]; [split_and!; [done|by eexists..]|]).
  done.
Qed.

Lemma navigate_target (requested : string) (nav : Nav) :
  ∃ target,
    navigate requested nav = (mkNav target target, target, bool_decide (fragment nav ≠ target))
    ∧ target ∈ SECTIONS
    ∧ (requested ∈ SECTIONS → target = requested)
    ∧ (requested ∉ SECTIONS → target = "overview").
Proof.
  unfold navigate. case_bool_decide as Hin.
  - exists requested. by split_and!.
  - exists "overview". split_and!; [done| |done..]. unfold SECTIONS. left.
Qed.

(** X23. Navigation always ends on one of the twelve sections, for which
    [loadSection] has a loader and [sectionLabel] a label of its own; any
    other name ends on the overview. When [navigate] changes the fragment
    of the location, the hashchange event makes it run a second time for
    the same section, so the section is loaded twice; that second run
    changes nothing further and causes no further event. *)
Theorem navigation_settles_on_known_section (requested : string) (nav : Nav) :
  ∃ target,
    target ∈ SECTIONS
    ∧ (requested ∈ SECTIONS → target = requested)
    ∧ (requested ∉ SECTIONS → target = "overview")
    ∧ is_Some (loadSection target)
    ∧ is_Some (assoc target sectionLabels)
    ∧ navigateAndSettle requested nav
      = (mkNav target target,
         if bool_decide (fragment nav = target) then [target] else [target; target],
         false).
Proof.
  destruct (navigate_target requested nav) as (target & Hnav & Hin & Hsame & Helse).
  destruct (section_known target Hin) as (Hne & Hload & Hlabel).
  exists target. split_and!; [done..|].
  unfold navigateAndSettle. rewrite Hnav.
  destruct (decide (fragment nav = target)) as [Hfrag|Hfrag].
  - rewrite (bool_decide_eq_false_2 (fragment nav ≠ target)) by (intros Hx; by apply Hx).
    by rewrite (bool_decide_eq_true_2 (fragment nav = target)).
  - rewrite (bool_decide_eq_true_2 (fragment nav ≠ target)) by done.
    rewrite (bool_decide_eq_false_2 (fragment nav = target)) by done.
    unfold onHashChange. cbn [fragment].
    apply DashboardSpec.nonempty_true in Hne. rewrite Hne.
    destruct (navigate_target target (mkNav target target))
      as (target' & Hnav' & _ & Hsame' & _).
    rewrite Hnav', (Hsame' Hin). cbn [fragment].
    by rewrite bool_decide_eq_false_2 by (intros Hx; by apply Hx).
Qed.

Lemma navigation_settles_on_known_section_witness :
  navigateAndSettle "gateway" (mkNav "overview" "overview")
  = (mkNav "gateway" "gateway", ["gateway"; "gateway"], false)
  ∧ navigateAndSettle "nowhere" (mkNav "overview" "overview")
    = (mkNav "overview" "overview", ["overview"], false).
Proof.
  destruct (navigation_settles_on_known_section "gateway" (mkNav "overview" "overview"))
    as (target & _ & Hsame & _ & _ & _ & Hrun).
  rewrite Hrun, Hsame; [|unfold SECTIONS; do 10 right; left].
  split; reflexivity.
Defined.

(** *** Theme *)

(** X24. Applying a theme stores it, so what a reload reads back is the
    theme in use whenever that theme is not the empty text. A toggle always
    lands on dark or light, whatever was stored before, and two toggles in
    a row from dark or light give back the same theme state and storage. *)
Theorem theme_toggle_round_trip (s : ThemeState) (st : gmap string string) :
  let '(s1, st1) := toggleTheme s st in
  let '(s2, st2) := toggleTheme s1 st1 in
  (theme s1 = "dark" ∨ theme s1 = "light")
  ∧ theme s1 ≠ theme s
  ∧ initialTheme st1 = theme s1
  ∧ dataTheme s1 = theme s1
  ∧ (∀ k, k ≠ THEME_KEY → st1 !! k = st !! k)
  ∧ (theme s = "dark" ∨ theme s = "light" →
       s2 = (applyTheme (theme s) st).1 ∧ st2 = (applyTheme (theme s) st).2)
  ∧ (∀ t, t ≠ EmptyString → initialTheme (applyTheme t st).2 = t)
  ∧ initialTheme (delete THEME_KEY st) = "dark".
Proof.
  unfold toggleTheme, applyTheme, initialTheme. cbn [theme].
  assert (∀ t : string, t ≠ EmptyString →
            default "dark" (saved (<[ THEME_KEY := t ]> st) THEME_KEY) = t) as Hread.
  { intros t Ht. rewrite ApiSpec.saved_insert_eq.
    apply DashboardSpec.nonempty_true in Ht. by rewrite Ht. }
  destruct (String.eqb_spec (theme s) "dark") as [Hdark|Hdark].
  - rewrite Hdark. cbn. split_and!; try done.
    + by right.
    + by apply Hread.
    + intros k Hk. by rewrite lookup_insert_ne.
    + intros _. split; [done|]. by rewrite insert_insert_eq.
    + unfold saved. by rewrite lookup_delete_eq.
  - cbn. split_and!; try done.
    + by left.
    + by apply Hread.
    + intros k Hk. by rewrite lookup_insert_ne.
    + intros [?|Hlight]; [done|]. rewrite Hlight. cbn.
      split; [done|]. by rewrite insert_insert_eq.
    + unfold saved. by rewrite lookup_delete_eq.
Qed.

Lemma theme_toggle_round_trip_witness :
  (toggleTheme (mkThemeState "solarized" "solarized" "🌙") {[ THEME_KEY := "solarized" ]}).1
  = mkThemeState "dark" "dark" "☀️".
Proof.
  pose proof (theme_toggle_round_trip (mkThemeState "solarized" "solarized" "🌙")
                {[ THEME_KEY := "solarized" ]}) as H.
  destruct (toggleTheme (mkThemeState "solarized" "solarized" "🌙")
              {[ THEME_KEY := "solarized" ]}) as [s1 st1] eqn:Htoggle.
  injection Htoggle as <- _. reflexivity.
Defined.

End AppSpec.

(** ** State files and the worker's snapshot cache *)

Module StateFileSpec.
Import ServiceWorker App.

Lemma includes_unfold (needle s : string) :
  includes needle s
  = String.prefix needle s
    || match s with EmptyString => false | String _ rest => includes needle rest end.
Proof. by destruct s. Qed.

Lemma prefix_app (needle rest : string) : String.prefix needle (needle +:+ rest) = true.
Proof.
  induction needle as [|c needle IH]; [by destruct rest|].
  change (String.prefix (String c needle) (String c (needle +:+ rest)) = true).
  cbn [String.prefix]. by destruct (ascii_dec c c).
Qed.

Lemma includes_app (before needle rest : string) :
  includes needle (before +:+ needle +:+ rest) = true.
Proof.
  induction before as [|c before IH].
  - rewrite includes_unfold. change (EmptyString +:+ ?x) with x.
    by rewrite prefix_app.
  - change (String c before +:+ ?x) with (String c (before +:+ x)).
    cbn [includes]. rewrite IH. apply orb_true_r.
Qed.

Lemma stateFileRequest_strategy (origin host rootDir filename : string) (now : N) :
  host ≠ "api.github.com" →
  strategy (stateFileRequest origin host rootDir filename now)
  = StaleWhileRevalidate API_CACHE.
Proof.
  intros Hhost. unfold strategy, stateFileRequest. cbn [method hostname pathname].
  rewrite bool_decide_eq_false_2 by (intros Hx; by apply Hx).
  rewrite bool_decide_eq_false_2 by done.
  by rewrite includes_app.
Qed.

(** X25. [loadStateFile] asks for a state file under a URL that carries the
    time of the request. The worker answers such a request by
    stale-while-revalidate, but caches by URL: two requests for the same
    file made at different times have different URLs, so what the first
    one stores is never the cached copy of the second; with nothing stored
    under its own URL and the network down, the second request is failed. *)
Theorem state_file_request_finds_no_earlier_copy
    (origin host rootDir filename : string) (t1 t2 : N)
    (net1 net2 : Network) (cs : CacheStorage) :
  let r1 := stateFileRequest origin host rootDir filename t1 in
  let r2 := stateFileRequest origin host rootDir filename t2 in
  host ≠ "api.github.com" →
  t1 ≠ t2 →
  strategy r2 = StaleWhileRevalidate API_CACHE
  ∧ url r1 ≠ url r2
  ∧ (∀ name, stored name (url r2) (onFetch net1 r1 cs).2 = stored name (url r2) cs)
  ∧ (stored API_CACHE (url r2) cs = None → net2 r2 = None →
       (onFetch net2 r2 (onFetch net1 r1 cs).2).1 = Some JsNull).
Proof.
  intros r1 r2 Hhost Htime.
  pose proof (stateFileRequest_strategy origin host rootDir filename t1 Hhost) as Hs1.
  pose proof (stateFileRequest_strategy origin host rootDir filename t2 Hhost) as Hs2.
  fold r1 in Hs1. fold r2 in Hs2.
  assert (url r1 ≠ url r2) as Hurl.
  { unfold r1, r2, stateFileRequest. cbn [url]. intros Heq.
    do 5 apply (inj (String.app _)) in Heq.
    by apply (inj pretty) in Heq. }
  assert (∀ name, stored name (url r2) (onFetch net1 r1 cs).2 = stored name (url r2) cs)
    as Hframe.
  { intros name. unfold onFetch. rewrite Hs1.
    destruct (ServiceWorkerLifecycle.staleWhileRevalidate_stored net1 r1 API_CACHE cs)
      as [Hsame|(r & _ & _ & _ & _ & Hrest)];
      destruct (staleWhileRevalidate net1 r1 API_CACHE cs); cbn [snd] in *; [done|].
    apply Hrest. right. by intros Heq. }
  split_and!; [done..|].
  intros Hnone Hnet. unfold onFetch at 1. rewrite Hs2.
  unfold staleWhileRevalidate. cbn [fst]. cbv zeta.
  assert (cache_match API_CACHE r2 (caches_open API_CACHE (onFetch net1 r1 cs).2) = None)
    as ->.
  { rewrite ServiceWorkerLifecycle.cache_match_stored by done.
    by rewrite ServiceWorkerLifecycle.stored_open, Hframe. }
  by rewrite Hnet.
Qed.

Lemma state_file_request_finds_no_earlier_copy_witness :
  let r := stateFileRequest "https://app.example" "app.example" "" "org-index.json" in
  let snapshot := mkResponse 200 "{}" None in
  (onFetch (fun _ => None) (r 1700000000001%N)
     (onFetch (fun _ => Some snapshot) (r 1700000000000%N) []).2).1 = Some JsNull.
Proof.
  intros r snapshot.
  destruct (state_file_request_finds_no_earlier_copy "https://app.example" "app.example"
              "" "org-index.json" 1700000000000 1700000000001
              (fun _ => Some snapshot) (fun _ => None) []) as (_ & _ & _ & Hnull);
    [done..|].
  by apply Hnull.
Defined.

End StateFileSpec.
